(** * modbusgenerator: the register encoding and placement engine

    A shallow embedding of [cmd/modbusgenerator/main.go]: the six word
    codecs ([Encode], [Address]), the encoder factory ([NewEncoder]) and the
    register image builder ([setRegister]), together with the part of the
    Go language they rest on (fixed-width integers, float conversions,
    slices with a backing array, run-time panics).

    Layout: the Go run-time model, the codecs, the factory, the builder,
    then the properties. *)

From Stdlib Require Import ZArith Floats Lia Bool.
From stdpp Require Import gmap strings list.

Local Open Scope Z_scope.

(** ** The Go run-time model *)

Module Go.

(** *** Fixed-width integers

    Unsigned values are kept as their value in [Z]; a conversion to a
    [w]-bit unsigned type keeps the low [w] bits. *)

Definition uint16 (z : Z) : Z := Z.land z 0xFFFF.
Definition byte (z : Z) : Z := Z.land z 0xFF.

(** [int] is the 64-bit signed integer of the amd64 build the README
    describes.  Overflow wraps around (two's complement). *)

Definition minInt : Z := - 2 ^ 63.
Definition maxInt : Z := 2 ^ 63 - 1.

Definition int (z : Z) : Z := (z + 2 ^ 63) mod 2 ^ 64 - 2 ^ 63.

Definition int_add (a b : Z) : Z := int (a + b).
Definition int_sub (a b : Z) : Z := int (a - b).

(** *** Floating point

    A [float64] is Rocq's primitive binary64 [float].  A [float32] value
    is kept as a [spec_float] of the binary32 format (24 bits of
    precision, maximal exponent 128). *)

(** Integer part of a finite float, rounded toward zero. *)
Definition trunc (x : float) : option Z :=
  match Prim2SF x with
  | S754_zero _ => Some 0
  | S754_finite s m e => Some (cond_Zopp s (Z.shiftl (Z.pos m) e))
  | S754_infinity _ | S754_nan => None
  end.

(** [int(x)] for a float64 [x].  When the integer part does not fit (or
    [x] is not finite) the language leaves the result to the
    implementation; amd64 yields the smallest [int]. *)
Definition int_of_float64 (x : float) : Z :=
  match trunc x with
  | Some t => if (minInt <=? t) && (t <=? maxInt) then t else minInt
  | None => minInt
  end.

(** [uint16(x)] for a float64 [x].  In range it is the integer part;
    outside, the result is again implementation-dependent: amd64
    converts to a 32-bit integer first and keeps the low 16 bits. *)
Definition uint16_of_float64 (x : float) : Z :=
  match trunc x with
  | Some t => if (- 2 ^ 31 <=? t) && (t <? 2 ^ 31) then uint16 t else 0
  | None => 0
  end.

(** [float32(x)]: rounding to nearest, ties to even. *)
Definition float32 (x : float) : spec_float :=
  match Prim2SF x with
  | S754_finite s m e => binary_normalize 24 128 (cond_Zopp s (Z.pos m)) e s
  | sf => sf
  end.

(** [math.Float32bits]: sign, 8 bits of biased exponent, 23 bits of
    fraction.  A NaN is given the quiet pattern. *)
Definition Float32bits (x : spec_float) : Z :=
  match x with
  | S754_zero s => Z.shiftl (Z.b2z s) 31
  | S754_infinity s => Z.lor (Z.shiftl (Z.b2z s) 31) 0x7F800000
  | S754_nan => 0x7FC00000
  | S754_finite s m e =>
      let biased := if Z.pos m <? 2 ^ 23 then 0 else e + 150 in
      Z.lor (Z.shiftl (Z.b2z s) 31)
        (Z.lor (Z.shiftl (Z.land biased 0xFF) 23) (Z.land (Z.pos m) 0x7FFFFF))
  end.

(** *** Panics *)

Inductive panic :=
| NilDereference          (* method call on a nil interface value *)
| InterfaceConversion     (* failed type assertion x.(T) *)
| SliceBoundsOutOfRange   (* s[:hi] with hi outside 0..cap(s) *)
| IndexOutOfRange.        (* s[i] with i outside 0..len(s)-1 *)

(** The outcome of a call: a returned value or a panic. *)
Inductive outcome (A : Type) :=
| Return (a : A)
| Panic (p : panic).
Arguments Return {A} a.
Arguments Panic {A} p.

Definition bind {A B} (x : outcome A) (k : A -> outcome B) : outcome B :=
  match x with
  | Return a => k a
  | Panic p => Panic p
  end.

(** *** Slices

    A slice is a window [0, len) on a backing array; its capacity is the
    length of the array.  Every slice of this program starts at the
    first cell of its array. *)

Record slice := Slice { arr : list Z; len : nat }.

Definition cap (s : slice) : nat := length (arr s).

(** [make([]T, n)]: zero-initialised. *)
Definition make (n : nat) : slice := Slice (replicate n 0) n.

(** [s[:hi]]: allowed up to the capacity, not only up to the length. *)
Definition slice_to (s : slice) (hi : Z) : outcome slice :=
  if (0 <=? hi) && (hi <=? Z.of_nat (cap s))
  then Return (Slice (arr s) (Z.to_nat hi))
  else Panic SliceBoundsOutOfRange.

Section Append.
(** The capacity the run time picks when [append] must reallocate,
    from the old capacity and the length needed.  It is at least the
    length needed; the exact value depends on the allocator. *)
Variable growcap : nat -> nat -> nat.

(** [append(s, b...)]: in place when the capacity allows, the cells
    after the new length keep their content; otherwise into a fresh
    zeroed array. *)
Definition append (s : slice) (b : list Z) : slice :=
  let n := (len s + length b)%nat in
  if (n <=? cap s)%nat
  then Slice (take (len s) (arr s) ++ b ++ drop n (arr s)) n
  else Slice (take (len s) (arr s) ++ b ++ replicate (growcap (cap s) n - n) 0) n.
End Append.

(** A growth policy for examples: exactly the length needed. *)
Definition tight (_ needed : nat) : nat := needed.

End Go.

Import Go.

(** ** Word codecs *)

(** [uint16ToLittleEndian]: the value is stored low byte first and read
    back high byte first. *)
Definition uint16ToLittleEndian (u : Z) : Z :=
  let b0 := byte u in                    (* LittleEndian.PutUint16: b[0] = byte(u)      *)
  let b1 := byte (Z.shiftr u 8) in       (*                         b[1] = byte(u >> 8) *)
  Z.lor b1 (Z.shiftl b0 8).              (* BigEndian.Uint16: b[1] | b[0] << 8          *)

(** [uint16ToByteSlice]: high byte, then low byte. *)
Definition uint16ToByteSlice (u : Z) : list Z :=
  let u1 := byte (Z.shiftr u 8) in
  let u2 := byte (Z.land u 0xFF) in
  [u1; u2].

(** The fields every encoder struct has. *)
Record fields := Fields { Type_ : string; Number : float; RegAddr : float }.

(** The six concrete types behind the [encoder] interface. *)
Inductive encoder :=
| float32LittleWordBigEndian (f : fields)
| float32BigWordBigEndian (f : fields)
| float32LittleWordLittleEndian (f : fields)
| float32BigWordLittleEndian (f : fields)
| wordInt16BigEndian (f : fields)
| wordInt16LittleEndian (f : fields).

Definition fields_of (e : encoder) : fields :=
  match e with
  | float32LittleWordBigEndian f | float32BigWordBigEndian f
  | float32LittleWordLittleEndian f | float32BigWordLittleEndian f
  | wordInt16BigEndian f | wordInt16LittleEndian f => f
  end.

Definition Encode_float32LittleWordBigEndian (f : fields) : list Z :=
  let n := float32 (Number f) in
  let v1 := uint16 (Z.land (Z.shiftr (Float32bits n) 16) 0xffff) in
  let v2 := uint16 (Z.land (Float32bits n) 0xffff) in
  [v2; v1].

Definition Encode_float32BigWordBigEndian (f : fields) : list Z :=
  let n := float32 (Number f) in
  let v1 := uint16 (Z.land (Z.shiftr (Float32bits n) 16) 0xffff) in
  let v2 := uint16 (Z.land (Float32bits n) 0xffff) in
  [v1; v2].

Definition Encode_float32LittleWordLittleEndian (f : fields) : list Z :=
  let n := float32 (Number f) in
  let v1 := uint16 (Z.land (Z.shiftr (Float32bits n) 16) 0xffff) in
  let v2 := uint16 (Z.land (Float32bits n) 0xffff) in
  let v1 := uint16ToLittleEndian v1 in
  let v2 := uint16ToLittleEndian v2 in
  [v2; v1].

Definition Encode_float32BigWordLittleEndian (f : fields) : list Z :=
  let n := float32 (Number f) in
  let v1 := uint16 (Z.land (Z.shiftr (Float32bits n) 16) 0xffff) in
  let v2 := uint16 (Z.land (Float32bits n) 0xffff) in
  let v1 := uint16ToLittleEndian v1 in
  let v2 := uint16ToLittleEndian v2 in
  [v1; v2].

Definition Encode_wordInt16BigEndian (w : fields) : list Z :=
  let vTmp := uint16 (Z.shiftl (uint16_of_float64 (Number w)) 8) in
  let v := Z.lor vTmp (uint16 1) in
  [v].

Definition Encode_wordInt16LittleEndian (w : fields) : list Z :=
  let v := uint16_of_float64 (Number w) in
  let v := uint16ToLittleEndian v in
  [v].

(** Method dispatch through the interface. *)
Definition Encode (e : encoder) : list Z :=
  match e with
  | float32LittleWordBigEndian f => Encode_float32LittleWordBigEndian f
  | float32BigWordBigEndian f => Encode_float32BigWordBigEndian f
  | float32LittleWordLittleEndian f => Encode_float32LittleWordLittleEndian f
  | float32BigWordLittleEndian f => Encode_float32BigWordLittleEndian f
  | wordInt16BigEndian f => Encode_wordInt16BigEndian f
  | wordInt16LittleEndian f => Encode_wordInt16LittleEndian f
  end.

(** All six [Address] methods are [int(f.RegAddr)]. *)
Definition Address (e : encoder) : Z := int_of_float64 (RegAddr (fields_of e)).

(** ** The encoder factory *)

(** What [encoding/json] puts behind an [interface{}]. *)
#[local] Unset Elimination Schemes.
Inductive jsonValue :=
| JNull
| JBool (b : bool)
| JNumber (f : float)
| JString (s : string)
| JArray (l : list jsonValue)
| JObject (l : list (string * jsonValue)).
#[local] Set Elimination Schemes.

(** One decoded record, a [map[string]interface{}]. *)
Abbreviation rawRecord := (gmap string jsonValue).

(** [m[k].(string)] and [m[k].(float64)]: a missing key yields the nil
    interface, on which any assertion panics. *)
Definition assert_string (v : option jsonValue) : outcome string :=
  match v with
  | Some (JString s) => Return s
  | _ => Panic InterfaceConversion
  end.

Definition assert_float64 (v : option jsonValue) : outcome float :=
  match v with
  | Some (JNumber f) => Return f
  | _ => Panic InterfaceConversion
  end.

(** The struct literal the six constructors share. *)
Definition assert_fields (m : rawRecord) : outcome fields :=
  bind (assert_string (m !! "type"%string)) (fun ty =>
  bind (assert_float64 (m !! "number"%string)) (fun n =>
  bind (assert_float64 (m !! "regAddr"%string)) (fun a =>
  Return (Fields ty n a)))).

Definition NewFloat32LittleWordBigEndian (m : rawRecord) : outcome encoder :=
  bind (assert_fields m) (fun f => Return (float32LittleWordBigEndian f)).
Definition NewFloat32BigWordBigEndian (m : rawRecord) : outcome encoder :=
  bind (assert_fields m) (fun f => Return (float32BigWordBigEndian f)).
Definition NewFloat32LittleWordLittleEndian (m : rawRecord) : outcome encoder :=
  bind (assert_fields m) (fun f => Return (float32LittleWordLittleEndian f)).
Definition NewFloat32BigWordLittleEndian (m : rawRecord) : outcome encoder :=
  bind (assert_fields m) (fun f => Return (float32BigWordLittleEndian f)).
Definition NewWordInt16BigEndian (m : rawRecord) : outcome encoder :=
  bind (assert_fields m) (fun f => Return (wordInt16BigEndian f)).
Definition NewWordInt16LittleEndian (m : rawRecord) : outcome encoder :=
  bind (assert_fields m) (fun f => Return (wordInt16LittleEndian f)).

(** An [encoder] interface value: [None] is the nil interface. *)
Definition some_encoder (r : outcome encoder) : outcome (option encoder) :=
  bind r (fun e => Return (Some e)).

Definition NewEncoder (m : rawRecord) : outcome (option encoder) :=
  bind (assert_string (m !! "type"%string)) (fun ty =>
  if String.eqb ty "float32LittleWordBigEndian" then
    some_encoder (NewFloat32LittleWordBigEndian m)
  else if String.eqb ty "float32BigWordBigEndian" then
    some_encoder (NewFloat32BigWordBigEndian m)
  else if String.eqb ty "float32LittleWordLittleEndian" then
    some_encoder (NewFloat32LittleWordLittleEndian m)
  else if String.eqb ty "float32BigWordLittleEndian" then
    some_encoder (NewFloat32BigWordLittleEndian m)
  else if String.eqb ty "wordInt16BigEndian" then
    some_encoder (NewWordInt16BigEndian m)
  else if String.eqb ty "wordInt16LittleEndian" then
    some_encoder (NewWordInt16LittleEndian m)
  else Return None).

(** The loop of [main] that turns the decoded records into [registryData]. *)
Fixpoint newRegistryData (registryRawData : list rawRecord) : outcome (list (option encoder)) :=
  match registryRawData with
  | [] => Return []
  | obj :: rest =>
      bind (NewEncoder obj) (fun e =>
      bind (newRegistryData rest) (fun es => Return (e :: es)))
  end.

(** ** The register image builder *)

(** The four register buffers of the server. *)
Record Server := {
  Coils : slice;
  DiscreteInputs : slice;
  InputRegisters : slice;
  HoldingRegisters : slice
}.

Definition set_Coils (s : slice) (serv : Server) : Server :=
  {| Coils := s; DiscreteInputs := DiscreteInputs serv;
     InputRegisters := InputRegisters serv; HoldingRegisters := HoldingRegisters serv |}.
Definition set_DiscreteInputs (s : slice) (serv : Server) : Server :=
  {| Coils := Coils serv; DiscreteInputs := s;
     InputRegisters := InputRegisters serv; HoldingRegisters := HoldingRegisters serv |}.
Definition set_InputRegisters (s : slice) (serv : Server) : Server :=
  {| Coils := Coils serv; DiscreteInputs := DiscreteInputs serv;
     InputRegisters := s; HoldingRegisters := HoldingRegisters serv |}.
Definition set_HoldingRegisters (s : slice) (serv : Server) : Server :=
  {| Coils := Coils serv; DiscreteInputs := DiscreteInputs serv;
     InputRegisters := InputRegisters serv; HoldingRegisters := s |}.

(** Modelled from the spec: [mbserver.NewServer] belongs to the imported
    server package, which is not among the sources.  Each category owns a
    flat, zero-initialised buffer spanning the protocol address space
    0..65535. *)
Definition NewServer : Server :=
  let n := Z.to_nat 65536 in
  {| Coils := make n; DiscreteInputs := make n;
     InputRegisters := make n; HoldingRegisters := make n |}.

(** The size of the registers in number of uint16's. *)
Definition coilSize : Z := 1.
Definition discreteSize : Z := 1.
Definition inputSize : Z := 2.
Definition holdingSize : Z := 2.

(** The errors [setRegister] returns:
    "wrong increment of address in <register> register for address after <addr>"
    and "wrong file given: ...". *)
Inductive error :=
| WrongIncrement (register : string) (addr : Z)
| WrongFile.

(** [s[0]] *)
Definition index0 (s : list Z) : outcome Z :=
  match s with
  | [] => Panic IndexOutOfRange
  | x :: _ => Return x
  end.

Section Builder.
Variable growcap : nat -> nat -> nat.

(** The four [for _, v := range registryData] loops.  [serv] is updated in
    place, so what was written before an error stays written. *)

Fixpoint coil_loop (addrOffset : Z) (registryData : list (option encoder))
    (prevAddr : Z) (serv : Server) : outcome (Server * option error) :=
  match registryData with
  | [] => Return (serv, None)
  | None :: _ => Panic NilDereference
  | Some v :: rest =>
      bind (index0 (Encode v)) (fun w =>
      let b := uint16ToByteSlice w in
      let addr := int_add (Address v) addrOffset in
      if prevAddr >? int_sub addr coilSize then
        Return (serv, Some (WrongIncrement "coil" addr))
      else
        bind (slice_to (Coils serv) addr) (fun s =>
        coil_loop addrOffset rest addr (set_Coils (append growcap s b) serv)))
  end.

Fixpoint discrete_loop (addrOffset : Z) (registryData : list (option encoder))
    (prevAddr : Z) (serv : Server) : outcome (Server * option error) :=
  match registryData with
  | [] => Return (serv, None)
  | None :: _ => Panic NilDereference
  | Some v :: rest =>
      bind (index0 (Encode v)) (fun w =>
      let b := uint16ToByteSlice w in
      let addr := int_add (Address v) addrOffset in
      if prevAddr >? int_sub addr discreteSize then
        Return (serv, Some (WrongIncrement "discrete" addr))
      else
        bind (slice_to (DiscreteInputs serv) addr) (fun s =>
        discrete_loop addrOffset rest addr
          (set_DiscreteInputs (append growcap s b) serv)))
  end.

Fixpoint input_loop (addrOffset : Z) (registryData : list (option encoder))
    (prevAddr : Z) (serv : Server) : outcome (Server * option error) :=
  match registryData with
  | [] => Return (serv, None)
  | None :: _ => Panic NilDereference
  | Some v :: rest =>
      let addr := int_add (Address v) addrOffset in
      if prevAddr >? int_sub addr inputSize then
        Return (serv, Some (WrongIncrement "input" addr))
      else
        bind (slice_to (InputRegisters serv) addr) (fun s =>
        input_loop addrOffset rest addr
          (set_InputRegisters (append growcap s (Encode v)) serv))
  end.

Fixpoint holding_loop (addrOffset : Z) (registryData : list (option encoder))
    (prevAddr : Z) (serv : Server) : outcome (Server * option error) :=
  match registryData with
  | [] => Return (serv, None)
  | None :: _ => Panic NilDereference
  | Some v :: rest =>
      let addr := int_add (Address v) addrOffset in
      if prevAddr >? int_sub addr holdingSize then
        Return (serv, Some (WrongIncrement "holding" addr))
      else
        bind (slice_to (HoldingRegisters serv) addr) (fun s =>
        holding_loop addrOffset rest addr
          (set_HoldingRegisters (append growcap s (Encode v)) serv))
  end.

(** [setRegister]: the returned pair is the server as the call leaves it
    and the error value ([None] is nil). *)
Definition setRegister (serv : Server) (registryData : list (option encoder))
    (registerType : string) (addrOffset : Z) : outcome (Server * option error) :=
  let prevAddr := 0 in
  if String.eqb registerType "coil" then
    coil_loop addrOffset registryData prevAddr serv
  else if String.eqb registerType "discrete" then
    discrete_loop addrOffset registryData prevAddr serv
  else if String.eqb registerType "input" then
    input_loop addrOffset registryData prevAddr serv
  else if String.eqb registerType "holding" then
    holding_loop addrOffset registryData prevAddr serv
  else
    Return (serv, Some WrongFile).

End Builder.

(** ** The four loops as one

    The four cases of [setRegister] differ in the register name, the size
    constant, the buffer and the units written per entry.  [place] is the
    loop on one buffer with these as arguments; [setRegister_place] below
    proves that each case of [setRegister] is an instance of it. *)

Inductive category := Coil | DiscreteInput | InputRegister | HoldingRegister.

Definition name (c : category) : string :=
  match c with
  | Coil => "coil" | DiscreteInput => "discrete"
  | InputRegister => "input" | HoldingRegister => "holding"
  end.

Definition size (c : category) : Z :=
  match c with
  | Coil => coilSize | DiscreteInput => discreteSize
  | InputRegister => inputSize | HoldingRegister => holdingSize
  end.

Definition buffer (c : category) (serv : Server) : slice :=
  match c with
  | Coil => Coils serv | DiscreteInput => DiscreteInputs serv
  | InputRegister => InputRegisters serv | HoldingRegister => HoldingRegisters serv
  end.

Definition set_buffer (c : category) (s : slice) (serv : Server) : Server :=
  match c with
  | Coil => set_Coils s serv | DiscreteInput => set_DiscreteInputs s serv
  | InputRegister => set_InputRegisters s serv
  | HoldingRegister => set_HoldingRegisters s serv
  end.

(** What one entry appends: the two bytes of its first word into a byte
    buffer, all its words into a word buffer. *)
Definition units (c : category) (v : encoder) : list Z :=
  match c with
  | Coil | DiscreteInput => uint16ToByteSlice (hd 0 (Encode v))
  | InputRegister | HoldingRegister => Encode v
  end.

(** The effective address of an entry. *)
Definition effectiveAddr (addrOffset : Z) (v : encoder) : Z :=
  int_add (Address v) addrOffset.

Section Place.
Variable growcap : nat -> nat -> nat.
Variable c : category.
Variable addrOffset : Z.

Fixpoint place (registryData : list (option encoder)) (prevAddr : Z)
    (buf : slice) : outcome (slice * option error) :=
  match registryData with
  | [] => Return (buf, None)
  | None :: _ => Panic NilDereference
  | Some v :: rest =>
      let addr := effectiveAddr addrOffset v in
      if prevAddr >? int_sub addr (size c) then
        Return (buf, Some (WrongIncrement (name c) addr))
      else
        bind (slice_to buf addr) (fun s =>
        place rest addr (append growcap s (units c v)))
  end.

End Place.

(** What a pass on the buffer of a category is for the server. *)
Definition lift (c : category) (serv : Server)
    (r : outcome (slice * option error)) : outcome (Server * option error) :=
  bind r (fun r => Return (set_buffer c r.1 serv, r.2)).

(** ** The spec's vocabulary *)

(** [swap(w) = (w << 8 | w >> 8) & 0xFFFF]. *)
Definition swap (w : Z) : Z := Z.land (Z.lor (Z.shiftl w 8) (Z.shiftr w 8)) 0xFFFF.

(** The four float kinds. *)
Inductive floatKind :=
| LittleWordBigEndian | BigWordBigEndian | LittleWordLittleEndian | BigWordLittleEndian.


(** The inverse reassembly: undo the word order and the byte swap of the
    kind, then join the high and the low word into the 32-bit pattern. *)
Definition join (high16 low16 : Z) : Z := Z.lor (Z.shiftl high16 16) low16.

Definition reassemble (k : floatKind) (words : list Z) : option Z :=
  match words with
  | [w0; w1] =>
      Some match k with
           | LittleWordBigEndian => join w1 w0
           | BigWordBigEndian => join w0 w1
           | LittleWordLittleEndian => join (swap w1) (swap w0)
           | BigWordLittleEndian => join (swap w0) (swap w1)
           end
  | _ => None
  end.



(** The six kinds of the spec, their type strings, and the kind of an
    encoder value. *)
Inductive kind :=
| Float32LittleWordBigEndian | Float32BigWordBigEndian
| Float32LittleWordLittleEndian | Float32BigWordLittleEndian
| WordInt16BigEndian | WordInt16LittleEndian.

Definition kind_string (k : kind) : string :=
  match k with
  | Float32LittleWordBigEndian => "float32LittleWordBigEndian"
  | Float32BigWordBigEndian => "float32BigWordBigEndian"
  | Float32LittleWordLittleEndian => "float32LittleWordLittleEndian"
  | Float32BigWordLittleEndian => "float32BigWordLittleEndian"
  | WordInt16BigEndian => "wordInt16BigEndian"
  | WordInt16LittleEndian => "wordInt16LittleEndian"
  end.

Definition kind_of (e : encoder) : kind :=
  match e with
  | float32LittleWordBigEndian _ => Float32LittleWordBigEndian
  | float32BigWordBigEndian _ => Float32BigWordBigEndian
  | float32LittleWordLittleEndian _ => Float32LittleWordLittleEndian
  | float32BigWordLittleEndian _ => Float32BigWordLittleEndian
  | wordInt16BigEndian _ => WordInt16BigEndian
  | wordInt16LittleEndian _ => WordInt16LittleEndian
  end.

Definition make_encoder (k : kind) (f : fields) : encoder :=
  match k with
  | Float32LittleWordBigEndian => float32LittleWordBigEndian f
  | Float32BigWordBigEndian => float32BigWordBigEndian f
  | Float32LittleWordLittleEndian => float32LittleWordLittleEndian f
  | Float32BigWordLittleEndian => float32BigWordLittleEndian f
  | WordInt16BigEndian => wordInt16BigEndian f
  | WordInt16LittleEndian => wordInt16LittleEndian f
  end.

(** The case of the switch of [NewEncoder] a type string selects. *)
Definition NewEncoder_cases (ty : string) : option kind :=
  if String.eqb ty "float32LittleWordBigEndian" then Some Float32LittleWordBigEndian
  else if String.eqb ty "float32BigWordBigEndian" then Some Float32BigWordBigEndian
  else if String.eqb ty "float32LittleWordLittleEndian" then Some Float32LittleWordLittleEndian
  else if String.eqb ty "float32BigWordLittleEndian" then Some Float32BigWordLittleEndian
  else if String.eqb ty "wordInt16BigEndian" then Some WordInt16BigEndian
  else if String.eqb ty "wordInt16LittleEndian" then Some WordInt16LittleEndian
  else None.

(** Positions of a buffer that the entries of a pass write to: [spans]
    for one entry, [covered] for a list. *)
Definition spans (c : category) (addrOffset : Z) (v : encoder) (p : Z) : bool :=
  (effectiveAddr addrOffset v <=? p) &&
  (p <? effectiveAddr addrOffset v + Z.of_nat (length (units c v))).

Fixpoint covered (c : category) (addrOffset : Z) (data : list (option encoder))
    (p : Z) : bool :=
  match data with
  | [] => false
  | None :: rest => covered c addrOffset rest p
  | Some v :: rest => spans c addrOffset v p || covered c addrOffset rest p
  end.

(** The value the pass leaves at a position: that of the last entry
    writing there. *)
Fixpoint written (c : category) (addrOffset : Z) (data : list (option encoder))
    (p : Z) : option Z :=
  match data with
  | [] => None
  | None :: rest => written c addrOffset rest p
  | Some v :: rest =>
      match written c addrOffset rest p with
      | Some x => Some x
      | None =>
          if spans c addrOffset v p
          then units c v !! Z.to_nat (p - effectiveAddr addrOffset v)
          else None
      end
  end.

(** Addresses in ascending order, each at least [width] above the one
    before it, the first at least [width] above [prev]. *)
Fixpoint ascending (width prev : Z) (addrs : list Z) : Prop :=
  match addrs with
  | [] => True
  | a :: rest => prev + width <= a /\ ascending width a rest
  end.

(** The address the tracker [prevAddr] holds after a pass over [data]. *)
Definition lastAddr (addrOffset : Z) (data : list (option encoder)) : Z :=
  match last data with
  | Some (Some v) => effectiveAddr addrOffset v
  | _ => 0
  end.

(** ** The driver *)

Definition coilType : string := "coil".
Definition discreteType : string := "discrete".
Definition inputType : string := "input".
Definition holdingType : string := "holding".

Record registerFile := { filename : string; registerType : string }.

Record flags := {
  registerFiles : list registerFile;
  registerStartOffset : Z;
  ListenRTUTCPPort : string
}.

Definition NewFlags : flags :=
  {| registerFiles := []; registerStartOffset := 0; ListenRTUTCPPort := "" |}.

(** The flags as given on the command line; [None] is a flag left out. *)
Record commandLine := {
  arg_jsonCoil : option string;
  arg_jsonDiscrete : option string;
  arg_jsonInput : option string;
  arg_jsonHolding : option string;
  arg_registerStartOffset : option Z;
  arg_listenRTUTCPPort : option string
}.

(** [parseFlags]: the defaults are the empty file name, offset -1 and
    port ":5502"; the four files are appended in a fixed order. *)
Definition parseFlags (args : commandLine) (f : flags) : flags :=
  let jsonCoil := default ""%string (arg_jsonCoil args) in
  let jsonDiscrete := default ""%string (arg_jsonDiscrete args) in
  let jsonInput := default ""%string (arg_jsonInput args) in
  let jsonHolding := default ""%string (arg_jsonHolding args) in
  let registerStartOffset := default (-1) (arg_registerStartOffset args) in
  let listenRTUTCPPort := default ":5502"%string (arg_listenRTUTCPPort args) in
  {| registerFiles :=
       registerFiles f
       ++ [ {| filename := jsonCoil; registerType := coilType |} ]
       ++ [ {| filename := jsonDiscrete; registerType := discreteType |} ]
       ++ [ {| filename := jsonInput; registerType := inputType |} ]
       ++ [ {| filename := jsonHolding; registerType := holdingType |} ];
     registerStartOffset := registerStartOffset;
     ListenRTUTCPPort := listenRTUTCPPort |}.

(** How [main] ends when it does not panic. *)
Inductive ending :=
| ListenFailed                                  (* ListenRTUTCP returned an error *)
| SetRegisterError (e : error) (serv : Server)  (* "error: setRegister: ..." *)
| NoConfigFile (serv : Server)                  (* "info: no config files specified or found" *)
| Serving (serv : Server).                      (* "Press ctrl+c to stop" *)

Section Main.
Variable growcap : nat -> nat -> nat.

(** The files as [main] finds them: [None] when [os.Open] fails, else the
    content of [registryRawData] after [Decode] (a decoding error is
    logged and the loop goes on with what was decoded). *)
Variable files : string -> option (list rawRecord).

(** The loop [for _, v := range f.registerFiles] and the lines after it. *)
Fixpoint range_registerFiles (registerStartOffset : Z) (fs : list registerFile)
    (configFileSpecified : bool) (serv : Server) : outcome ending :=
  match fs with
  | [] =>
      if configFileSpecified then Return (Serving serv)
      else Return (NoConfigFile serv)
  | v :: rest =>
      if String.eqb (filename v) "" then
        range_registerFiles registerStartOffset rest configFileSpecified serv
      else
        match files (filename v) with
        | None => range_registerFiles registerStartOffset rest true serv
        | Some registryRawData =>
            bind (newRegistryData registryRawData) (fun registryData =>
            bind (setRegister growcap serv registryData (registerType v)
                    registerStartOffset) (fun r =>
            match r.2 with
            | Some e => Return (SetRegisterError e r.1)
            | None => range_registerFiles registerStartOffset rest true r.1
            end))
        end
  end.

(** [main], from the parsed command line; [listenErr] tells whether
    [ListenRTUTCP] fails. *)
Definition main (args : commandLine) (listenErr : bool) : outcome ending :=
  let f := parseFlags args NewFlags in
  let serv := NewServer in
  if listenErr then Return ListenFailed
  else range_registerFiles (registerStartOffset f) (registerFiles f) false serv.

End Main.

(** The place of a category in the order [main] goes through them. *)
Definition rank (c : category) : nat :=
  match c with
  | Coil => 0 | DiscreteInput => 1 | InputRegister => 2 | HoldingRegister => 3
  end.

(** The file name the command line gives for a category. *)
Definition file_of (args : commandLine) (c : category) : string :=
  default ""%string
    match c with
    | Coil => arg_jsonCoil args | DiscreteInput => arg_jsonDiscrete args
    | InputRegister => arg_jsonInput args | HoldingRegister => arg_jsonHolding args
    end.

(** The four categories in the order of [parseFlags], and the entry of
    [registerFiles] for a category. *)
Definition categories : list category :=
  [Coil; DiscreteInput; InputRegister; HoldingRegister].

Definition registerFile_of (args : commandLine) (c : category) : registerFile :=
  {| filename := file_of args c; registerType := name c |}.

Fixpoint in_order (cs : list category) : Prop :=
  match cs with
  | [] => True
  | c :: rest => Forall (fun c' => (rank c < rank c')%nat) rest /\ in_order rest
  end.

(** A category [main] passes over: no file name given, or a file that
    does not open. *)
Definition skipped (files : string -> option (list rawRecord))
    (args : commandLine) (c : category) : Prop :=
  file_of args c = ""%string \/ files (file_of args c) = None.

(** What the buffer of a category is after [main] went through the files
    from [serv] and serves [serv']: untouched when the category was
    passed over, else what the pass over its own file makes of it. *)
Definition built_alone (growcap : nat -> nat -> nat)
    (files : string -> option (list rawRecord)) (args : commandLine) (off : Z)
    (c : category) (serv serv' : Server) : Prop :=
  (skipped files args c /\ buffer c serv' = buffer c serv) \/
  (exists rs data,
     file_of args c <> ""%string /\ files (file_of args c) = Some rs /\
     newRegistryData rs = Return data /\
     place growcap c off data 0 (buffer c serv) = Return (buffer c serv', None)).

(** The bound of a buffer's cells: bytes for coils and discrete inputs,
    16-bit words for input and holding registers. *)
Definition cell_bound (c : category) : Z :=
  match c with
  | Coil | DiscreteInput => 2 ^ 8
  | InputRegister | HoldingRegister => 2 ^ 16
  end.

(** ** Sample inputs *)

(** 3.1415 as a float64. *)
Definition number_3_1415 : float := 0x1.921cac083126fp+1.

Definition holdingEntry (regAddr : float) : encoder :=
  float32BigWordBigEndian (Fields "float32BigWordBigEndian" number_3_1415 regAddr).

Definition coilEntry (number regAddr : float) : encoder :=
  wordInt16BigEndian (Fields "wordInt16BigEndian" number regAddr).

(** The two holding registers of the README, at 101 and 103. *)
Definition twoHolding : list (option encoder) :=
  [Some (holdingEntry 101); Some (holdingEntry 103)].

(** A command line that names the holding file only, and a file system
    that holds this file with the given records. *)
Definition holdingOnly : commandLine :=
  {| arg_jsonCoil := None; arg_jsonDiscrete := None; arg_jsonInput := None;
     arg_jsonHolding := Some "holding.json"%string;
     arg_registerStartOffset := None; arg_listenRTUTCPPort := None |}.

Definition holdingFile (rs : list rawRecord) (fn : string) : option (list rawRecord) :=
  if String.eqb fn "holding.json" then Some rs else None.

(** The server a call left behind. *)
Definition server_of (r : outcome (Server * option error)) : Server :=
  match r with
  | Return (s, _) => s
  | Panic _ => NewServer
  end.

Definition record (ty : string) (number regAddr : float) : rawRecord :=
  <[ "type"%string := JString ty ]>
    (<[ "number"%string := JNumber number ]> {[ "regAddr"%string := JNumber regAddr ]}).

Definition holdingRecord (regAddr : float) : rawRecord :=
  record "float32BigWordBigEndian" number_3_1415 regAddr.

(** ** Bit-level facts *)

Lemma testbit_above (n u i : Z) :
  0 <= u < 2 ^ n -> n <= i -> Z.testbit u i = false.
Proof.
  intros Hu Hi. destruct (Z.eq_dec u 0) as [->|Hne]; [apply Z.bits_0|].
  assert (0 <= n).
  { destruct (Z.le_gt_cases 0 n); [lia|]. rewrite Z.pow_neg_r in Hu; lia. }
  apply Z.bits_above_log2; [lia|].
  assert (Z.log2 u < n) by (apply Z.log2_lt_pow2; lia). lia.
Qed.

(** Push [Z.testbit] through the bit operations, ... *)
Ltac bit_expand :=
  repeat match goal with
  | |- context [Z.testbit (Z.land ?a ?b) ?i] => rewrite (Z.land_spec a b i)
  | |- context [Z.testbit (Z.lor ?a ?b) ?i] => rewrite (Z.lor_spec a b i)
  | |- context [Z.testbit (Z.ones ?n) ?i] => rewrite (Z.testbit_ones n i) by lia
  | |- context [Z.testbit (Z.shiftl ?a ?n) ?i] =>
      first [ rewrite (Z.testbit_neg_r (Z.shiftl a n) i) by lia
            | rewrite (Z.shiftl_spec a n i) by lia ]
  | |- context [Z.testbit (Z.shiftr ?a ?n) ?i] =>
      first [ rewrite (Z.testbit_neg_r (Z.shiftr a n) i) by lia
            | rewrite (Z.shiftr_spec a n i) by lia ]
  end.

(** ... decide the index comparisons, ... *)
Ltac bit_cmp :=
  repeat match goal with
  | |- context [?a <=? ?b] => destruct (Z.leb_spec a b); try lia
  | |- context [?a <? ?b] => destruct (Z.ltb_spec a b); try lia
  end.

(** ... and drop the bits a bounded value does not have. *)
Ltac bit_close :=
  repeat match goal with
  | H : 0 <= ?u < 2 ^ ?n |- context [Z.testbit ?u ?j] =>
      first [ rewrite (testbit_above n u j H) by lia
            | rewrite (Z.testbit_neg_r u j) by lia ]
  end;
  rewrite ?andb_true_r, ?andb_false_r, ?orb_false_r, ?orb_false_l,
    ?andb_true_l, ?andb_false_l;
  try reflexivity; try (f_equal; lia).

Ltac bitwise :=
  let i := fresh "i" in
  apply Z.bits_inj'; intros i ?;
  destruct (Z.lt_ge_cases i 8); destruct (Z.lt_ge_cases i 16);
  destruct (Z.lt_ge_cases i 24); destruct (Z.lt_ge_cases i 32); try lia;
  bit_expand; bit_cmp; bit_close.

Ltac masks :=
  change 0xFF with (Z.ones 8) in *;
  change 0xffff with (Z.ones 16) in *;
  change 0x7FFFFF with (Z.ones 23) in *.

Lemma land_ones_range (z n : Z) : 0 <= n -> 0 <= Z.land z (Z.ones n) < 2 ^ n.
Proof. intros. rewrite Z.land_ones by lia. apply Z.mod_pos_bound. lia. Qed.

Lemma lor_range (n a b : Z) :
  0 <= n -> 0 <= a < 2 ^ n -> 0 <= b < 2 ^ n -> 0 <= Z.lor a b < 2 ^ n.
Proof.
  intros Hn Ha Hb. assert (0 <= Z.lor a b) by (apply Z.lor_nonneg; lia).
  split; [assumption|].
  destruct (Z.eq_dec (Z.lor a b) 0) as [->|Hne]; [lia|].
  apply Z.log2_lt_pow2; [lia|].
  rewrite Z.log2_lor by lia.
  destruct (Z.eq_dec a 0) as [->|]; destruct (Z.eq_dec b 0) as [->|];
    try (rewrite Z.lor_0_l in Hne || rewrite Z.lor_0_r in Hne);
    try lia.
  - change (Z.log2 0) with 0. rewrite Z.max_r by apply Z.log2_nonneg.
    apply Z.log2_lt_pow2; lia.
  - change (Z.log2 0) with 0. rewrite Z.max_l by apply Z.log2_nonneg.
    apply Z.log2_lt_pow2; lia.
  - apply Z.max_lub_lt; apply Z.log2_lt_pow2; lia.
Qed.

Lemma uint16_range (z : Z) : 0 <= uint16 z < 2 ^ 16.
Proof. unfold uint16. masks. apply land_ones_range. lia. Qed.

Lemma uint16_small (z : Z) : 0 <= z < 2 ^ 16 -> uint16 z = z.
Proof.
  intros. unfold uint16. masks. rewrite Z.land_ones by lia.
  apply Z.mod_small. lia.
Qed.

Lemma byte_range (z : Z) : 0 <= byte z < 2 ^ 8.
Proof. unfold byte. masks. apply land_ones_range. lia. Qed.

Lemma Float32bits_range (x : spec_float) : 0 <= Float32bits x < 2 ^ 32.
Proof.
  assert (Hs : forall s, 0 <= Z.shiftl (Z.b2z s) 31 < 2 ^ 32) by (intros []; vm_compute; split; easy).
  destruct x as [s|s| |s m e]; cbn [Float32bits].
  - apply Hs.
  - apply lor_range; [lia|apply Hs|lia].
  - lia.
  - apply lor_range; [lia|apply Hs|]. masks.
    apply lor_range; [lia| |].
    + pose proof (land_ones_range (if Z.pos m <? 2 ^ 23 then 0 else e + 150) 8).
      rewrite Z.shiftl_mul_pow2 by lia. lia.
    + pose proof (land_ones_range (Z.pos m) 23). lia.
Qed.

Lemma uint16_of_float64_range (x : float) : 0 <= uint16_of_float64 x < 2 ^ 16.
Proof.
  unfold uint16_of_float64. destruct (trunc x); [|lia].
  destruct (_ && _); [apply uint16_range|lia].
Qed.

Lemma swap_range (w : Z) : 0 <= swap w < 2 ^ 16.
Proof. unfold swap. masks. apply land_ones_range. lia. Qed.

Lemma uint16ToLittleEndian_swap (u : Z) :
  0 <= u < 2 ^ 16 -> uint16ToLittleEndian u = swap u.
Proof. intros Hu. unfold uint16ToLittleEndian, swap, byte. masks. bitwise. Qed.

Lemma swap_involutive (w : Z) : 0 <= w < 2 ^ 16 -> swap (swap w) = w.
Proof. intros Hw. unfold swap. masks. bitwise. Qed.

(** The two words the float encoders compute. *)
Lemma high16_eq (bits : Z) :
  0 <= bits < 2 ^ 32 ->
  uint16 (Z.land (Z.shiftr bits 16) 0xffff) = Z.shiftr bits 16.
Proof. intros Hb. unfold uint16. masks. bitwise. Qed.

Lemma low16_eq (bits : Z) :
  uint16 (Z.land bits 0xffff) = Z.land bits 0xFFFF.
Proof. unfold uint16. masks. bitwise. Qed.


Lemma high16_range (bits : Z) : 0 <= bits < 2 ^ 32 -> 0 <= Z.shiftr bits 16 < 2 ^ 16.
Proof.
  intros. rewrite Z.shiftr_div_pow2 by lia. split.
  - apply Z.div_pos; lia.
  - apply Z.div_lt_upper_bound; lia.
Qed.

Lemma low16_range (bits : Z) : 0 <= Z.land bits 0xFFFF < 2 ^ 16.
Proof. masks. apply land_ones_range. lia. Qed.

(** ** The word codecs *)

(** The words of the four float encoders, in the spec's terms. *)
Lemma float32_words (ty : string) (n a : float) :
  let bits := Float32bits (float32 n) in
  let high16 := Z.shiftr bits 16 in
  let low16 := Z.land bits 0xFFFF in
  let f := Fields ty n a in
  Encode (float32LittleWordBigEndian f) = [low16; high16] /\
  Encode (float32BigWordBigEndian f) = [high16; low16] /\
  Encode (float32LittleWordLittleEndian f) = [swap low16; swap high16] /\
  Encode (float32BigWordLittleEndian f) = [swap high16; swap low16].
Proof.
  intros bits high16 low16 f.
  pose proof (Float32bits_range (float32 n)) as Hb. fold bits in Hb.
  pose proof (high16_eq bits Hb) as Hh. pose proof (low16_eq bits) as Hl.
  pose proof (high16_range bits Hb) as Rh. pose proof (low16_range bits) as Rl.
  subst f.
  unfold Encode, Encode_float32LittleWordBigEndian, Encode_float32BigWordBigEndian,
    Encode_float32LittleWordLittleEndian, Encode_float32BigWordLittleEndian.
  cbn [Number]. fold bits. cbv zeta. rewrite Hh, Hl. fold high16 low16.
  rewrite !uint16ToLittleEndian_swap by assumption.
  repeat split; reflexivity.
Qed.

(** C2.  For every float64 input [n], with [bits] the binary32 pattern of
    [float32(n)], [high16 = bits >> 16] and [low16 = bits & 0xFFFF]:
    [Float32LittleWordBigEndian] encodes to [[low16, high16]],
    [Float32BigWordBigEndian] to [[high16, low16]],
    [Float32LittleWordLittleEndian] to [[swap(low16), swap(high16)]] and
    [Float32BigWordLittleEndian] to [[swap(high16), swap(low16)]]. *)
Theorem float32_encode_layout (ty : string) (n a : float) :
  let bits := Float32bits (float32 n) in
  let high16 := Z.shiftr bits 16 in
  let low16 := Z.land bits 0xFFFF in
  let f := Fields ty n a in
  Encode (float32LittleWordBigEndian f) = [low16; high16] /\
  Encode (float32BigWordBigEndian f) = [high16; low16] /\
  Encode (float32LittleWordLittleEndian f) = [swap low16; swap high16] /\
  Encode (float32BigWordLittleEndian f) = [swap high16; swap low16].
Proof. exact (float32_words ty n a). Qed.



(** ** Machine integers *)

Lemma int_range (z : Z) : minInt <= int z <= maxInt.
Proof.
  unfold int, minInt, maxInt.
  pose proof (Z.mod_pos_bound (z + 2 ^ 63) (2 ^ 64)). lia.
Qed.

Lemma int_small (z : Z) : minInt <= z <= maxInt -> int z = z.
Proof.
  unfold int, minInt, maxInt. intros H.
  rewrite Z.mod_small by lia. lia.
Qed.

Lemma effectiveAddr_range (off : Z) (v : encoder) :
  minInt <= effectiveAddr off v <= maxInt.
Proof. apply int_range. Qed.

(** Below the wrap-around the guard of the loops is the plain one. *)
Lemma int_sub_size (c : category) (addr : Z) :
  minInt + size c <= addr <= maxInt -> int_sub addr (size c) = addr - size c.
Proof.
  intros H. unfold int_sub. apply int_small.
  destruct c; cbn [size] in *;
    unfold coilSize, discreteSize, inputSize, holdingSize, minInt, maxInt in *; lia.
Qed.

Lemma size_pos (c : category) : 1 <= size c <= 2.
Proof.
  destruct c; cbn; unfold coilSize, discreteSize, inputSize, holdingSize; lia.
Qed.

(** ** Slices *)

Section SliceFacts.
Variable growcap : nat -> nat -> nat.
Implicit Types (a b : list Z) (k p j : nat).

Lemma append_span a k b j :
  (k <= length a)%nat -> (j < length b)%nat ->
  arr (append growcap (Slice a k) b) !! (k + j)%nat = b !! j.
Proof.
  intros Hk Hj. unfold append, cap; cbn [arr len].
  destruct (_ <=? _)%nat; cbn [arr];
    rewrite lookup_app_r by (rewrite length_take; lia);
    rewrite length_take, Nat.min_l by lia;
    replace (k + j - k)%nat with j by lia;
    apply lookup_app_l; lia.
Qed.

Lemma append_below a k b p :
  (k <= length a)%nat -> (p < k)%nat ->
  arr (append growcap (Slice a k) b) !! p = a !! p.
Proof.
  intros Hk Hp. unfold append, cap; cbn [arr len].
  destruct (_ <=? _)%nat; cbn [arr];
    rewrite lookup_app_l by (rewrite length_take; lia);
    apply lookup_take_lt; lia.
Qed.

Lemma append_above a k b p :
  (k <= length a)%nat -> (k + length b <= p)%nat -> (p < length a)%nat ->
  arr (append growcap (Slice a k) b) !! p = a !! p.
Proof.
  intros Hk Hp Hlt. unfold append, cap; cbn [arr len].
  destruct (Nat.leb_spec (k + length b) (length a)); [|lia]. cbn [arr].
  rewrite lookup_app_r by (rewrite length_take; lia).
  rewrite length_take, Nat.min_l by lia.
  rewrite lookup_app_r by lia. rewrite lookup_drop. f_equal. lia.
Qed.

Lemma append_cap a k b :
  (k <= length a)%nat ->
  (length a <= cap (append growcap (Slice a k) b))%nat /\
  (k + length b <= cap (append growcap (Slice a k) b))%nat /\
  ((k + length b <= length a)%nat ->
   cap (append growcap (Slice a k) b) = length a).
Proof.
  intros Hk. unfold append, cap; cbn [arr len].
  destruct (Nat.leb_spec (k + length b) (length a)); cbn [arr];
    rewrite !length_app, length_take, Nat.min_l by lia;
    rewrite ?length_drop, ?length_replicate; lia.
Qed.

Lemma append_fresh a k b p :
  (k <= length a)%nat -> (k + length b <= p)%nat -> (length a <= p)%nat ->
  (p < cap (append growcap (Slice a k) b))%nat ->
  arr (append growcap (Slice a k) b) !! p = Some 0.
Proof.
  intros Hk Hp Hge. unfold append, cap; cbn [arr len].
  destruct (Nat.leb_spec (k + length b) (length a)); cbn [arr].
  - rewrite !length_app, length_take, length_drop, Nat.min_l by lia. lia.
  - rewrite !length_app, length_take, length_replicate, Nat.min_l by lia.
    intros Hlt.
    rewrite lookup_app_r by (rewrite length_take; lia).
    rewrite length_take, Nat.min_l by lia.
    rewrite lookup_app_r by lia.
    apply lookup_replicate_2. lia.
Qed.

Lemma slice_to_Return (buf s : slice) (hi : Z) :
  slice_to buf hi = Return s <->
  0 <= hi <= Z.of_nat (cap buf) /\ s = Slice (arr buf) (Z.to_nat hi).
Proof.
  unfold slice_to.
  destruct (Z.leb_spec 0 hi); destruct (Z.leb_spec hi (Z.of_nat (cap buf)));
    cbn [andb]; split; try (intros [? ?]; lia); try discriminate.
  - intros [= <-]. split; [lia|reflexivity].
  - intros [_ ->]. reflexivity.
Qed.

Lemma slice_to_Panic (buf : slice) (hi : Z) :
  hi < 0 \/ Z.of_nat (cap buf) < hi -> slice_to buf hi = Panic SliceBoundsOutOfRange.
Proof.
  unfold slice_to.
  destruct (Z.leb_spec 0 hi); destruct (Z.leb_spec hi (Z.of_nat (cap buf)));
    cbn [andb]; intros [?|?]; lia || reflexivity.
Qed.

End SliceFacts.

(** ** One pass over one buffer *)

Lemma Encode_cons (v : encoder) : exists w ws, Encode v = w :: ws.
Proof. destruct v; cbn; eauto. Qed.

Lemma Encode_length (v : encoder) : (1 <= length (Encode v) <= 2)%nat.
Proof. destruct v; cbn; lia. Qed.

Lemma units_length (c : category) (v : encoder) :
  (1 <= length (units c v) <= 2)%nat.
Proof. destruct c; cbn; try apply Encode_length; lia. Qed.

Lemma coil_units_length (c : category) (v : encoder) :
  size c = 1 -> length (units c v) = 2%nat.
Proof. destruct c; cbn; try reflexivity; discriminate. Qed.

Lemma spans_iff (c : category) (off : Z) (v : encoder) (p : Z) :
  spans c off v p = true <->
  effectiveAddr off v <= p < effectiveAddr off v + Z.of_nat (length (units c v)).
Proof. unfold spans. rewrite andb_true_iff, Z.leb_le, Z.ltb_lt. reflexivity. Qed.

Lemma written_None (c : category) (off : Z) (data : list (option encoder)) (p : Z) :
  written c off data p = None -> covered c off data p = false.
Proof.
  induction data as [|[v|] rest IH]; cbn; [reflexivity| |exact IH].
  destruct (written c off rest p); [discriminate|].
  destruct (spans c off v p) eqn:Hs; [|intros _; cbn; apply IH; reflexivity].
  apply spans_iff in Hs. intros Hn. apply lookup_ge_None in Hn. lia.
Qed.

Lemma covered_written (c : category) (off : Z) (data : list (option encoder)) (p : Z) :
  covered c off data p = true -> is_Some (written c off data p).
Proof.
  intros Hc. destruct (written c off data p) eqn:Hw; [eauto|].
  apply written_None in Hw. congruence.
Qed.

Lemma covered_elem (c : category) (off : Z) (data : list (option encoder)) (p : Z) :
  covered c off data p = true <-> exists v, Some v ∈ data /\ spans c off v p = true.
Proof.
  induction data as [|[v|] rest IH]; cbn.
  - split; [discriminate|]. intros (v & Hin & _). inversion Hin.
  - rewrite orb_true_iff, IH. split.
    + intros [Hs|(w & Hin & Hs)]; [exists v|exists w]; split; auto; constructor; auto.
    + intros (w & Hin & Hs). inversion Hin; subst; eauto.
  - rewrite IH. split; intros (w & Hin & Hs); exists w; split; auto.
    + constructor; auto.
    + inversion Hin; subst; auto.
Qed.

Section PlaceFacts.
Variable growcap : nat -> nat -> nat.
Variable c : category.
Variable off : Z.

Local Abbreviation pass := (place growcap c off).
Local Abbreviation eff := (effectiveAddr off).

(** What a successful pass went through at its first entry. *)
Lemma place_cons_ok v rest prev buf buf' :
  pass (Some v :: rest) prev buf = Return (buf', None) ->
  prev + size c <= eff v /\
  0 <= eff v <= Z.of_nat (cap buf) /\
  pass rest (eff v)
    (append growcap (Slice (arr buf) (Z.to_nat (eff v))) (units c v))
    = Return (buf', None).
Proof.
  cbn [place].
  destruct (Z.gtb_spec prev (int_sub (eff v) (size c))) as [Hgt|Hle];
    [discriminate|].
  destruct (slice_to buf (eff v)) as [s|] eqn:Hs; [|discriminate].
  apply slice_to_Return in Hs as [Hr ->]. cbn [bind]. intros Hp.
  pose proof (effectiveAddr_range off v). pose proof (size_pos c).
  rewrite int_sub_size in Hle by (unfold minInt, maxInt in *; lia).
  repeat split; try lia. exact Hp.
Qed.

Lemma place_nil_inv prev buf buf' (e : option error) :
  pass [] prev buf = Return (buf', e) -> buf' = buf /\ e = None.
Proof. cbn. intros [= <- <-]. auto. Qed.

(** A successful pass never shrinks the backing array and leaves every
    cell outside the written spans as it was; cells of a reallocated
    array beyond the old capacity are zero. *)
Lemma place_frame data prev buf buf' :
  pass data prev buf = Return (buf', None) ->
  (cap buf <= cap buf')%nat /\
  forall p : nat, covered c off data (Z.of_nat p) = false ->
    ((p < cap buf)%nat -> arr buf' !! p = arr buf !! p) /\
    ((cap buf <= p < cap buf')%nat -> arr buf' !! p = Some 0).
Proof.
  revert prev buf. induction data as [|[v|] rest IH]; intros prev buf Hp.
  - apply place_nil_inv in Hp as [-> _]. split; [lia|]. intros p _. split; [auto|lia].
  - apply place_cons_ok in Hp as (_ & Hr & Hp).
    set (k := Z.to_nat (eff v)) in *.
    set (buf1 := append growcap (Slice (arr buf) k) (units c v)) in *.
    assert (Hk : (k <= length (arr buf))%nat) by (unfold cap in Hr; lia).
    destruct (append_cap growcap (arr buf) k (units c v) Hk) as (Hc1 & Hc2 & _).
    fold buf1 in Hc1, Hc2.
    destruct (IH _ _ Hp) as [Hcap Hfr]. unfold cap at 1 in Hcap.
    split; [unfold cap in *; lia|].
    intros p Hcov. cbn [covered] in Hcov. apply orb_false_iff in Hcov as [Hs Hcov].
    destruct (Hfr p Hcov) as [Hold Hnew].
    assert (Hout : (p < k)%nat \/ (k + length (units c v) <= p)%nat).
    { destruct (spans c off v (Z.of_nat p)) eqn:E; [discriminate|].
      unfold spans in E. apply andb_false_iff in E as [E|E];
        [apply Z.leb_gt in E|apply Z.ltb_ge in E]; lia. }
    split.
    + intros Hlt. rewrite Hold by (unfold cap in *; lia).
      destruct Hout; [apply append_below|apply append_above]; auto.
    + intros [Hge Hlt]. destruct (Nat.lt_ge_cases p (cap buf1)) as [Hin|Hin].
      * rewrite Hold by exact Hin. apply append_fresh; auto.
        unfold cap in *. lia.
      * apply Hnew. lia.
  - discriminate.
Qed.

(** The value a successful pass leaves at a written position is that of
    the last entry writing there. *)
Lemma place_written data prev buf buf' (p : nat) (x : Z) :
  pass data prev buf = Return (buf', None) ->
  written c off data (Z.of_nat p) = Some x ->
  arr buf' !! p = Some x.
Proof.
  revert prev buf. induction data as [|[v|] rest IH]; intros prev buf Hp Hw.
  - discriminate.
  - apply place_cons_ok in Hp as (_ & Hr & Hp).
    cbn [written] in Hw.
    destruct (written c off rest (Z.of_nat p)) as [y|] eqn:Hrest.
    + injection Hw as ->. eapply IH; eauto.
    + destruct (spans c off v (Z.of_nat p)) eqn:Hs; [|discriminate].
      apply spans_iff in Hs. apply written_None in Hrest.
      set (k := Z.to_nat (eff v)) in *.
      assert (Hk : (k <= length (arr buf))%nat) by (unfold cap in Hr; lia).
      destruct (append_cap growcap (arr buf) k (units c v) Hk) as (_ & Hc2 & _).
      destruct (place_frame _ _ _ _ Hp) as [_ Hfr].
      destruct (Hfr p Hrest) as [Hold _]. rewrite Hold by lia.
      replace p with (k + Z.to_nat (Z.of_nat p - eff v))%nat at 1 by lia.
      rewrite append_span by lia. exact Hw.
  - discriminate.
Qed.

(** A successful pass saw only non-nil entries, in ascending order. *)
Lemma place_ascending data prev buf buf' :
  pass data prev buf = Return (buf', None) ->
  exists es, data = Some <$> es /\
    ascending (size c) prev (eff <$> es) /\
    forall v, v ∈ es -> 0 <= eff v <= Z.of_nat (cap buf').
Proof.
  revert prev buf. induction data as [|[v|] rest IH]; intros prev buf Hp.
  - exists []. split; [reflexivity|]. split; [exact I|]. intros v Hin. inversion Hin.
  - pose proof Hp as Hp0.
    apply place_cons_ok in Hp as (Hle & Hr & Hp).
    destruct (IH _ _ Hp) as (es & -> & Hasc & Hin).
    destruct (place_frame _ _ _ _ Hp) as [Hcap _].
    set (k := Z.to_nat (eff v)) in *.
    assert (Hk : (k <= length (arr buf))%nat) by (unfold cap in Hr; lia).
    destruct (append_cap growcap (arr buf) k (units c v) Hk) as (Hc1 & _ & _).
    exists (v :: es). split; [reflexivity|]. split; [split; assumption|].
    intros w Hw. inversion Hw; subst; [|auto]. unfold cap in *. lia.
  - discriminate.
Qed.

(** Ascending entries that fit in the buffer are all placed, in place. *)
Lemma place_ok es prev buf :
  0 <= prev ->
  ascending (size c) prev (eff <$> es) ->
  (forall v, v ∈ es -> eff v + Z.of_nat (length (units c v)) <= Z.of_nat (cap buf)) ->
  exists buf', pass (Some <$> es) prev buf = Return (buf', None) /\
    cap buf' = cap buf.
Proof.
  revert prev buf. induction es as [|v es IH]; intros prev buf Hprev Hasc Hfit.
  - exists buf. split; reflexivity.
  - destruct Hasc as [Hle Hasc]. cbn [fmap list_fmap place].
    pose proof (effectiveAddr_range off v). pose proof (size_pos c).
    assert (Hv : eff v + Z.of_nat (length (units c v)) <= Z.of_nat (cap buf))
      by (apply Hfit; constructor).
    rewrite int_sub_size by (unfold minInt, maxInt in *; lia).
    destruct (Z.gtb_spec prev (eff v - size c)); [lia|].
    assert (Hs : slice_to buf (eff v) = Return (Slice (arr buf) (Z.to_nat (eff v))))
      by (apply slice_to_Return; split; [lia|reflexivity]).
    rewrite Hs. cbn [bind].
    set (k := Z.to_nat (eff v)) in *.
    assert (Hk : (k <= length (arr buf))%nat) by (unfold cap in *; lia).
    destruct (append_cap growcap (arr buf) k (units c v) Hk) as (_ & _ & Hc).
    assert (Hc' : cap (append growcap (Slice (arr buf) k) (units c v)) = cap buf)
      by (apply Hc; unfold cap in *; lia).
    destruct (IH (eff v) (append growcap (Slice (arr buf) k) (units c v)))
      as (buf' & Hp & Hcap); [lia|exact Hasc| |].
    + intros w Hw. rewrite Hc'. apply Hfit. constructor; exact Hw.
    + exists buf'. split; [exact Hp|congruence].
Qed.

(** A pass over [pre ++ post] is a pass over [pre] followed, when that one
    succeeds, by a pass over [post] from where the tracker stands. *)
Lemma place_app pre post prev buf buf1 :
  pass pre prev buf = Return (buf1, None) ->
  pass (pre ++ post) prev buf =
  pass post (match last pre with Some (Some v) => eff v | _ => prev end) buf1.
Proof.
  revert prev buf. induction pre as [|[v|] pre IH]; intros prev buf Hp.
  - apply place_nil_inv in Hp as [-> _]. reflexivity.
  - cbn [app place] in *.
    destruct (prev >? int_sub (eff v) (size c)); [discriminate|].
    destruct (slice_to buf (eff v)) as [s|]; [|discriminate]. cbn [bind] in *.
    rewrite (IH _ _ Hp). rewrite last_cons.
    destruct (last pre) as [[w|]|] eqn:Hl; try reflexivity.
    (* a nil entry last in [pre] would have made the pass panic *)
    exfalso. destruct (place_ascending _ _ _ _ Hp) as (es & -> & _).
    rewrite fmap_last in Hl. destruct (last es); discriminate.
  - discriminate.
Qed.

End PlaceFacts.

(** ** The four cases of [setRegister] are passes of [place] *)

Section Cases.
Variable growcap : nat -> nat -> nat.

Lemma set_buffer_same (c : category) (serv : Server) :
  set_buffer c (buffer c serv) serv = serv.
Proof. destruct c, serv; reflexivity. Qed.

Lemma buffer_set_buffer (c : category) (s : slice) (serv : Server) :
  buffer c (set_buffer c s serv) = s.
Proof. destruct c; reflexivity. Qed.

Lemma buffer_set_buffer_ne (c c' : category) (s : slice) (serv : Server) :
  c' <> c -> buffer c' (set_buffer c s serv) = buffer c' serv.
Proof. destruct c, c'; try reflexivity; congruence. Qed.

Ltac loop_is_place c :=
  let data := fresh "data" in
  let IH := fresh "IH" in
  intros off data; induction data as [|[v|] data IH]; intros prev serv;
  [ unfold lift; cbn; rewrite (set_buffer_same c); reflexivity
  | destruct (Encode_cons v) as (w & ws & Hw);
    cbn [coil_loop discrete_loop input_loop holding_loop place units size name];
    unfold effectiveAddr; rewrite ?Hw; cbn [index0 bind hd];
    destruct (prev >? _);
    [ unfold lift; cbn; rewrite (set_buffer_same c); reflexivity
    | destruct (slice_to _ _) as [s|]; [|reflexivity]; cbn [bind];
      rewrite IH; rewrite ?Hw; reflexivity ]
  | reflexivity ].

Lemma coil_loop_place : forall off data prev serv,
  coil_loop growcap off data prev serv =
  lift Coil serv (place growcap Coil off data prev (Coils serv)).
Proof. loop_is_place Coil. Qed.

Lemma discrete_loop_place : forall off data prev serv,
  discrete_loop growcap off data prev serv =
  lift DiscreteInput serv (place growcap DiscreteInput off data prev (DiscreteInputs serv)).
Proof. loop_is_place DiscreteInput. Qed.

Lemma input_loop_place : forall off data prev serv,
  input_loop growcap off data prev serv =
  lift InputRegister serv (place growcap InputRegister off data prev (InputRegisters serv)).
Proof. loop_is_place InputRegister. Qed.

Lemma holding_loop_place : forall off data prev serv,
  holding_loop growcap off data prev serv =
  lift HoldingRegister serv
    (place growcap HoldingRegister off data prev (HoldingRegisters serv)).
Proof. loop_is_place HoldingRegister. Qed.

Lemma setRegister_place (c : category) serv data off :
  setRegister growcap serv data (name c) off =
  lift c serv (place growcap c off data 0 (buffer c serv)).
Proof.
  destruct c; unfold setRegister; cbn [name String.eqb Ascii.eqb Bool.eqb buffer].
  - apply coil_loop_place.
  - apply discrete_loop_place.
  - apply input_loop_place.
  - apply holding_loop_place.
Qed.

(** Success of [setRegister] is success of the pass. *)
Lemma setRegister_ok (c : category) serv data off serv' :
  setRegister growcap serv data (name c) off = Return (serv', None) <->
  exists buf', place growcap c off data 0 (buffer c serv) = Return (buf', None) /\
    serv' = set_buffer c buf' serv.
Proof.
  rewrite setRegister_place. unfold lift.
  destruct (place growcap c off data 0 (buffer c serv)) as [[buf' e]|]; cbn.
  - split.
    + intros [= <- ->]. eauto.
    + intros (b & [= -> ->] & ->). reflexivity.
  - split; [discriminate|]. intros (b & Hb & _). discriminate.
Qed.

Lemma setRegister_err (c : category) serv data off buf' e :
  place growcap c off data 0 (buffer c serv) = Return (buf', Some e) ->
  setRegister growcap serv data (name c) off = Return (set_buffer c buf' serv, Some e).
Proof. intros H. rewrite setRegister_place. unfold lift. rewrite H. reflexivity. Qed.

End Cases.

(** ** Ascending entries *)

Section Ascending.
Variable c : category.
Variable off : Z.
Local Abbreviation eff := (effectiveAddr off).

Lemma covered_false_written data p :
  covered c off data p = false -> written c off data p = None.
Proof.
  intros Hc. destruct (written c off data p) eqn:Hw; [|reflexivity].
  exfalso. revert Hc Hw. induction data as [|[v|] rest IH]; cbn; try discriminate.
  - intros Hc. apply orb_false_iff in Hc as [Hs Hc]. rewrite Hs.
    destruct (written c off rest p); [auto|discriminate].
  - exact IH.
Qed.




End Ascending.

(** ** Placement *)


(** C9.  After a successful pass for a category the backing array of the
    category's buffer is at least as long as before, the buffers of the
    other categories are the same, and every cell that no entry wrote to
    holds what it held before, hence zero in a zero-initialised buffer;
    cells that a reallocation added are zero as well. *)
Theorem gaps_keep_their_value (growcap : nat -> nat -> nat) (c : category)
    (serv serv' : Server) (data : list (option encoder)) (off : Z) :
  setRegister growcap serv data (name c) off = Return (serv', None) ->
  (cap (buffer c serv) <= cap (buffer c serv'))%nat /\
  (forall c', c' <> c -> buffer c' serv' = buffer c' serv) /\
  (forall p : nat, covered c off data (Z.of_nat p) = false ->
     ((p < cap (buffer c serv))%nat ->
      arr (buffer c serv') !! p = arr (buffer c serv) !! p) /\
     (arr (buffer c serv) = replicate (cap (buffer c serv)) 0 ->
      (p < cap (buffer c serv'))%nat ->
      arr (buffer c serv') !! p = Some 0)).
Proof.
  intros H. apply setRegister_ok in H as (buf' & Hp & ->).
  rewrite buffer_set_buffer.
  destruct (place_frame _ _ _ _ _ _ _ Hp) as [Hcap Hfr].
  split; [exact Hcap|]. split.
  { intros c' Hne. apply buffer_set_buffer_ne. exact Hne. }
  intros p Hcov. destruct (Hfr p Hcov) as [Hold Hnew]. split; [exact Hold|].
  intros Hzero Hlt. destruct (Nat.lt_ge_cases p (cap (buffer c serv))) as [Hin|Hout].
  - rewrite Hold by exact Hin. rewrite Hzero. apply lookup_replicate_2. exact Hin.
  - apply Hnew. lia.
Qed.

(** ** The offset *)

Lemma int_of_float64_range (x : float) : minInt <= int_of_float64 x <= maxInt.
Proof.
  unfold int_of_float64. destruct (trunc x) as [t|]; [|unfold minInt, maxInt; lia].
  destruct (Z.leb_spec minInt t); destruct (Z.leb_spec t maxInt); cbn [andb];
    unfold minInt, maxInt in *; lia.
Qed.

Lemma Address_range (v : encoder) : minInt <= Address v <= maxInt.
Proof. apply int_of_float64_range. Qed.


Lemma written_shift (c : category) (data : list (option encoder)) (p : Z) :
  (forall v, Some v ∈ data -> effectiveAddr 0 v = effectiveAddr (-1) v + 1) ->
  written c 0 data (p + 1) = written c (-1) data p.
Proof.
  induction data as [|[v|] rest IH]; intros Heff; cbn [written].
  - reflexivity.
  - rewrite IH by (intros w Hw; apply Heff; constructor; exact Hw).
    destruct (written c (-1) rest p); [reflexivity|].
    assert (He : effectiveAddr 0 v = effectiveAddr (-1) v + 1)
      by (apply Heff; constructor).
    unfold spans. rewrite He.
    replace (effectiveAddr (-1) v + 1 <=? p + 1) with (effectiveAddr (-1) v <=? p)
      by (destruct (Z.leb_spec (effectiveAddr (-1) v) p);
          destruct (Z.leb_spec (effectiveAddr (-1) v + 1) (p + 1)); lia).
    replace (p + 1 <? effectiveAddr (-1) v + 1 + Z.of_nat (length (units c v)))
      with (p <? effectiveAddr (-1) v + Z.of_nat (length (units c v)))
      by (destruct (Z.ltb_spec p (effectiveAddr (-1) v + Z.of_nat (length (units c v))));
          destruct (Z.ltb_spec (p + 1)
                      (effectiveAddr (-1) v + 1 + Z.of_nat (length (units c v)))); lia).
    replace (p + 1 - (effectiveAddr (-1) v + 1)) with (p - effectiveAddr (-1) v) by lia.
    reflexivity.
  - apply IH. intros w Hw. apply Heff. constructor. exact Hw.
Qed.

(** C5.  When a list builds under offset 0 and under offset -1, every
    entry's effective address under offset 0 is one above its effective
    address under offset -1 (which is the configured address less one),
    and every cell written under offset -1 is found, with the same
    content, one position higher under offset 0. *)
Theorem offset_zero_is_one_higher (growcap : nat -> nat -> nat) (c : category)
    (serv s0 s1 : Server) (data : list (option encoder)) :
  setRegister growcap serv data (name c) 0 = Return (s0, None) ->
  setRegister growcap serv data (name c) (-1) = Return (s1, None) ->
  (forall v, Some v ∈ data ->
     effectiveAddr (-1) v = Address v - 1 /\
     effectiveAddr 0 v = effectiveAddr (-1) v + 1) /\
  (forall p : nat, covered c (-1) data (Z.of_nat p) = true ->
     covered c 0 data (Z.of_nat (S p)) = true /\
     arr (buffer c s0) !! S p = arr (buffer c s1) !! p).
Proof.
  intros H0 H1.
  apply setRegister_ok in H0 as (b0 & Hp0 & ->).
  apply setRegister_ok in H1 as (b1 & Hp1 & ->).
  rewrite !buffer_set_buffer.
  assert (Heff : forall v, Some v ∈ data ->
            effectiveAddr (-1) v = Address v - 1 /\
            effectiveAddr 0 v = effectiveAddr (-1) v + 1).
  { intros v Hin.
    destruct (place_ascending _ _ _ _ _ _ _ Hp0) as (es & Heq & _ & Hge).
    assert (Hv : v ∈ es).
    { subst data. apply list_elem_of_fmap in Hin as (w & [= ->] & Hw). exact Hw. }
    specialize (Hge v Hv). pose proof (Address_range v).
    unfold effectiveAddr, int_add in *. rewrite Z.add_0_r in *.
    rewrite (int_small (Address v)) in * by assumption.
    rewrite int_small by (unfold minInt, maxInt in *; lia). lia. }
  split; [exact Heff|]. intros p Hcov.
  destruct (covered_written _ _ _ _ Hcov) as [x Hx].
  assert (Hx0 : written c 0 data (Z.of_nat (S p)) = Some x).
  { replace (Z.of_nat (S p)) with (Z.of_nat p + 1) by lia.
    rewrite written_shift; [exact Hx|]. intros v Hv. apply Heff; exact Hv. }
  split.
  - destruct (covered c 0 data (Z.of_nat (S p))) eqn:E; [reflexivity|].
    apply covered_false_written in E. congruence.
  - rewrite (place_written _ _ _ _ _ _ _ _ _ Hp0 Hx0).
    rewrite (place_written _ _ _ _ _ _ _ _ _ Hp1 Hx). reflexivity.
Qed.

(** ** Rejections *)


Lemma place_cons (growcap : nat -> nat -> nat) (c : category) (off : Z)
    v rest prev buf :
  place growcap c off (Some v :: rest) prev buf =
  if prev >? int_sub (effectiveAddr off v) (size c)
  then Return (buf, Some (WrongIncrement (name c) (effectiveAddr off v)))
  else bind (slice_to buf (effectiveAddr off v)) (fun s =>
       place growcap c off rest (effectiveAddr off v)
         (append growcap s (units c v))).
Proof. reflexivity. Qed.

(** The guard: an entry reached with the tracker above its address less
    the size stops the pass with the wrong-increment error for that
    address, leaving the server as the entries before left it. *)
Lemma setRegister_guard (growcap : nat -> nat -> nat) (c : category)
    (serv s1 : Server) (off : Z) pre v rest :
  setRegister growcap serv pre (name c) off = Return (s1, None) ->
  lastAddr off pre > int_sub (effectiveAddr off v) (size c) ->
  setRegister growcap serv (pre ++ Some v :: rest) (name c) off
  = Return (s1, Some (WrongIncrement (name c) (effectiveAddr off v))).
Proof.
  intros Hpre Hgt. apply setRegister_ok in Hpre as (buf1 & Hp & ->).
  apply setRegister_err. rewrite (place_app _ _ _ _ _ _ _ _ Hp).
  fold (lastAddr off pre). cbn [place].
  destruct (Z.gtb_spec (lastAddr off pre) (int_sub (effectiveAddr off v) (size c)));
    [reflexivity|lia].
Qed.



(** ** The first entry *)

Lemma setRegister_nil (growcap : nat -> nat -> nat) (c : category) (serv : Server) (off : Z) :
  setRegister growcap serv [] (name c) off = Return (serv, None).
Proof. apply setRegister_ok. exists (buffer c serv). split; [reflexivity|]. symmetry. apply set_buffer_same. Qed.

(** Away from the wrap-around, a first entry below the unit width is
    refused with the wrong-increment error: the tracker starts at 0. *)
Lemma first_entry_below_width (growcap : nat -> nat -> nat) (c : category)
    (serv : Server) (off : Z) v rest :
  minInt + size c <= effectiveAddr off v < size c ->
  setRegister growcap serv (Some v :: rest) (name c) off
  = Return (serv, Some (WrongIncrement (name c) (effectiveAddr off v))).
Proof.
  intros Hv. apply (setRegister_guard growcap c serv serv off [] v rest).
  - apply setRegister_nil.
  - pose proof (effectiveAddr_range off v).
    rewrite int_sub_size by lia. unfold lastAddr. cbn. lia.
Qed.

Lemma ascending_ge (w prev : Z) (addrs : list Z) (a : Z) :
  0 <= w -> ascending w prev addrs -> a ∈ addrs -> prev + w <= a.
Proof.
  intros Hw. revert prev. induction addrs as [|a0 addrs IH]; intros prev Hasc Hin.
  - inversion Hin.
  - destruct Hasc as [Hle Hasc]. inversion Hin; subst; [exact Hle|].
    specialize (IH a0 Hasc ltac:(assumption)). lia.
Qed.

(** No entry of a list that builds has an effective address below the
    unit width. *)
Lemma placed_at_least_width (growcap : nat -> nat -> nat) (c : category)
    (serv s : Server) (off : Z) data v :
  setRegister growcap serv data (name c) off = Return (s, None) ->
  Some v ∈ data -> size c <= effectiveAddr off v.
Proof.
  intros Hok Hin. apply setRegister_ok in Hok as (buf' & Hp & _).
  destruct (place_ascending _ _ _ _ _ _ _ Hp) as (es & -> & Hasc & _).
  apply list_elem_of_fmap in Hin as (w & [= ->] & Hw).
  pose proof (size_pos c).
  apply (ascending_ge (size c) 0 (effectiveAddr off <$> es)); [lia|exact Hasc|].
  apply list_elem_of_fmap_2. exact Hw.
Qed.

(** C10.  At the wrap-around the claim fails: a first entry configured at
    the smallest machine integer, under offset 0, has an effective
    address below every unit width, yet the guard computes
    [addr - size] as a large positive number, lets the entry through, and
    the slice expression panics; no wrong-increment error is returned. *)
Theorem first_entry_at_minInt_panics (growcap : nat -> nat -> nat) (c : category) :
  let v := wordInt16BigEndian (Fields "wordInt16BigEndian" 1 (-9223372036854775808)) in
  effectiveAddr 0 v = minInt /\
  effectiveAddr 0 v < size c /\
  int_sub (effectiveAddr 0 v) (size c) = maxInt + 1 - size c /\
  setRegister growcap NewServer [Some v] (name c) 0 = Panic SliceBoundsOutOfRange.
Proof.
  intros v. split; [reflexivity|]. split; [destruct c; reflexivity|].
  split; [destruct c; reflexivity|].
  rewrite setRegister_place. unfold lift. rewrite place_cons.
  replace (0 >? int_sub (effectiveAddr 0 v) (size c)) with false
    by (destruct c; reflexivity).
  rewrite slice_to_Panic; [reflexivity|]. left. reflexivity.
Qed.

(** ** The factory *)

Lemma kind_string_eqb (k : kind) :
  NewEncoder_cases (kind_string k) = Some k.
Proof. destruct k; reflexivity. Qed.

Lemma NewEncoder_cases_Some (ty : string) (k : kind) :
  NewEncoder_cases ty = Some k -> ty = kind_string k.
Proof.
  unfold NewEncoder_cases.
  repeat match goal with
  | |- context [String.eqb ty ?s] =>
      destruct (String.eqb_spec ty s) as [->|_]; [intros [= <-]; reflexivity|]
  end.
  discriminate.
Qed.

Lemma NewEncoder_by_case (m : rawRecord) :
  NewEncoder m =
  bind (assert_string (m !! "type"%string)) (fun ty =>
  match NewEncoder_cases ty with
  | Some k => bind (assert_fields m) (fun f => Return (Some (make_encoder k f)))
  | None => Return None
  end).
Proof.
  unfold NewEncoder, NewEncoder_cases.
  destruct (assert_string (m !! "type"%string)) as [ty|]; [|reflexivity]. cbn [bind].
  unfold some_encoder, NewFloat32LittleWordBigEndian, NewFloat32BigWordBigEndian,
    NewFloat32LittleWordLittleEndian, NewFloat32BigWordLittleEndian,
    NewWordInt16BigEndian, NewWordInt16LittleEndian.
  repeat (destruct (String.eqb ty _);
          [destruct (assert_fields m); reflexivity|]).
  reflexivity.
Qed.

(** C8 (as amended).  A record whose [type] is one of the six recognised
    strings and whose [number] and [regAddr] are numbers yields an encoder
    of the matching kind carrying the three fields.  A record whose
    [type] is any other string yields the nil encoder: the call returns
    normally, no error is raised.  A record whose [type] is missing or
    not a string, or whose [type] is recognised but whose [number] or
    [regAddr] is missing or not a number, makes the call panic on the
    type assertion. *)
Theorem NewEncoder_dispatch (m : rawRecord) :
  (forall k n a,
     m !! "type"%string = Some (JString (kind_string k)) ->
     m !! "number"%string = Some (JNumber n) ->
     m !! "regAddr"%string = Some (JNumber a) ->
     exists e, NewEncoder m = Return (Some e) /\
       kind_of e = k /\ fields_of e = Fields (kind_string k) n a) /\
  (forall ty,
     m !! "type"%string = Some (JString ty) ->
     (forall k, ty <> kind_string k) ->
     NewEncoder m = Return None) /\
  ((forall ty, m !! "type"%string <> Some (JString ty)) ->
     NewEncoder m = Panic InterfaceConversion) /\
  (forall k,
     m !! "type"%string = Some (JString (kind_string k)) ->
     (forall n, m !! "number"%string <> Some (JNumber n)) \/
     (forall a, m !! "regAddr"%string <> Some (JNumber a)) ->
     NewEncoder m = Panic InterfaceConversion).
Proof.
  rewrite NewEncoder_by_case. repeat split.
  - intros k n a Ht Hn Ha. unfold assert_fields.
    rewrite Ht, Hn, Ha. cbn [assert_string assert_float64 bind].
    rewrite kind_string_eqb. cbn [bind]. eexists. split; [reflexivity|].
    destruct k; split; reflexivity.
  - intros ty Ht Hk. rewrite Ht. cbn [assert_string bind].
    destruct (NewEncoder_cases ty) as [k|] eqn:E; [|reflexivity].
    apply NewEncoder_cases_Some in E. exfalso. exact (Hk k E).
  - intros Hno. destruct (m !! "type"%string) as [[| | |ty| |]|]; try reflexivity.
    exfalso. exact (Hno ty eq_refl).
  - intros k Ht Hbad. unfold assert_fields.
    rewrite Ht. cbn [assert_string bind]. rewrite kind_string_eqb.
    destruct Hbad as [Hn|Ha].
    + destruct (m !! "number"%string) as [[| |n| | |]|]; try reflexivity.
      exfalso. exact (Hn n eq_refl).
    + destruct (m !! "number"%string) as [[| |n| | |]|]; try reflexivity.
      destruct (m !! "regAddr"%string) as [[| |a| | |]|]; try reflexivity.
      exfalso. exact (Ha a eq_refl).
Qed.

(** The server a successful call leaves is the one [server_of] reads off. *)
Lemma setRegister_builds (growcap : nat -> nat -> nat) (c : category)
    (serv : Server) (es : list encoder) (off : Z) :
  ascending (size c) 0 (effectiveAddr off <$> es) ->
  Forall (fun v => effectiveAddr off v + Z.of_nat (length (units c v))
                   <= Z.of_nat (cap (buffer c serv))) es ->
  setRegister growcap serv (Some <$> es) (name c) off
  = Return (server_of (setRegister growcap serv (Some <$> es) (name c) off), None).
Proof.
  intros Hasc Hfit. rewrite Forall_forall in Hfit.
  destruct (place_ok growcap c off es 0 (buffer c serv)) as (buf' & Hp & _);
    [lia|exact Hasc|exact Hfit|].
  assert (H : setRegister growcap serv (Some <$> es) (name c) off
              = Return (set_buffer c buf' serv, None))
    by (apply setRegister_ok; eauto).
  rewrite H. reflexivity.
Qed.

(** ** The properties on concrete inputs *)

(** Equalities between closed terms are decided by evaluation, without
    printing the (large) buffers; small propositions are computed. *)
Ltac by_vm := lazymatch goal with |- ?x = _ => vm_cast_no_check (eq_refl x) end.
Ltac by_compute := vm_compute; repeat split; easy.



(** Scenario 1 of the spec: 3.1415 encodes to the words of 0x40490E56. *)
Lemma float32BigWordBigEndian_3_1415 :
  Encode (holdingEntry 103) = [0x4049; 0x0E56] /\
  Address (holdingEntry 103) = 103 /\
  reassemble BigWordBigEndian (Encode (holdingEntry 103)) = Some 0x40490E56.
Proof. by_compute. Qed.



Lemma gaps_keep_their_value_witness :
  arr (buffer HoldingRegister
         (server_of (setRegister tight NewServer twoHolding "holding" (-1))))
    !! 200%nat = Some 0.
Proof.
  destruct (gaps_keep_their_value tight HoldingRegister NewServer
              (server_of (setRegister tight NewServer twoHolding "holding" (-1)))
              twoHolding (-1)) as (_ & _ & H).
  - apply (setRegister_builds tight HoldingRegister NewServer
             [holdingEntry 101; holdingEntry 103] (-1));
      [by_compute|repeat constructor; by_compute].
  - destruct (H 200%nat) as [_ Hz]; [by_vm|].
    apply Hz; [by_vm|]. apply Nat.ltb_lt. by_vm.
Defined.

Lemma offset_zero_is_one_higher_witness :
  arr (buffer HoldingRegister
         (server_of (setRegister tight NewServer twoHolding "holding" 0)))
    !! 101%nat
  = arr (buffer HoldingRegister
           (server_of (setRegister tight NewServer twoHolding "holding" (-1))))
      !! 100%nat.
Proof.
  destruct (offset_zero_is_one_higher tight HoldingRegister NewServer
              (server_of (setRegister tight NewServer twoHolding "holding" 0))
              (server_of (setRegister tight NewServer twoHolding "holding" (-1)))
              twoHolding) as [_ H].
  - apply (setRegister_builds tight HoldingRegister NewServer
             [holdingEntry 101; holdingEntry 103] 0);
      [by_compute|repeat constructor; by_compute].
  - apply (setRegister_builds tight HoldingRegister NewServer
             [holdingEntry 101; holdingEntry 103] (-1));
      [by_compute|repeat constructor; by_compute].
  - destruct (H 100%nat) as [_ Heq]; [by_vm|]. exact Heq.
Defined.




(** The claim C8 as stated fails: a record of a recognised type without
    a number makes the factory panic, and a record of an unknown type
    makes it return nil, not an error. *)
Lemma NewEncoder_as_stated_fails :
  (({[ "type"%string := JString "wordInt16BigEndian" ]} : rawRecord) !! "type"%string
   = Some (JString (kind_string WordInt16BigEndian)) /\
   NewEncoder {[ "type"%string := JString "wordInt16BigEndian" ]}
   = Panic InterfaceConversion) /\
  NewEncoder (record "int16" 1 0) = Return None.
Proof. by_compute. Qed.

Lemma NewEncoder_dispatch_witness :
  (exists e, NewEncoder (record "wordInt16BigEndian" 1 0) = Return (Some e) /\
     kind_of e = WordInt16BigEndian /\
     fields_of e = Fields "wordInt16BigEndian" 1 0) /\
  NewEncoder (record "int16" 1 0) = Return None /\
  NewEncoder ∅ = Panic InterfaceConversion /\
  NewEncoder {[ "type"%string := JString "wordInt16BigEndian" ]}
  = Panic InterfaceConversion.
Proof.
  split; [|split; [|split]].
  - apply (proj1 (NewEncoder_dispatch (record "wordInt16BigEndian" 1 0))
             WordInt16BigEndian 1%float 0%float); vm_compute; reflexivity.
  - apply (proj1 (proj2 (NewEncoder_dispatch (record "int16" 1 0))) "int16"%string).
    + vm_compute. reflexivity.
    + intros []; discriminate.
  - apply (proj1 (proj2 (proj2 (NewEncoder_dispatch ∅)))).
    intros ty. vm_compute. discriminate.
  - apply (proj2 (proj2 (proj2 (NewEncoder_dispatch
             {[ "type"%string := JString "wordInt16BigEndian" ]})))
             WordInt16BigEndian).
    + vm_compute. reflexivity.
    + left. intros n. vm_compute. discriminate.
Defined.

(** An unknown type goes unnoticed until [setRegister] calls a method on
    the nil entry. *)
Lemma unknown_kind_panics_later (growcap : nat -> nat -> nat) (c : category) :
  newRegistryData [record "int16" 1 0] = Return [None] /\
  setRegister growcap NewServer [None] (name c) (-1) = Panic NilDereference.
Proof. split; [by_compute|]. rewrite setRegister_place. reflexivity. Qed.

(** ** More on the word codecs *)

Lemma uint16ToLittleEndian_range (u : Z) : 0 <= uint16ToLittleEndian u < 2 ^ 16.
Proof.
  unfold uint16ToLittleEndian. apply lor_range; [lia| |].
  - pose proof (byte_range (Z.shiftr u 8)). lia.
  - pose proof (byte_range u). rewrite Z.shiftl_mul_pow2 by lia. lia.
Qed.

Lemma uint16ToLittleEndian_arith (u : Z) :
  0 <= u < 2 ^ 16 -> uint16ToLittleEndian u = (u mod 2 ^ 8) * 2 ^ 8 + u / 2 ^ 8.
Proof.
  intros Hu. unfold uint16ToLittleEndian, byte. masks.
  assert (Hd : Z.land (Z.land (Z.shiftr u 8) (Z.ones 8))
                 (Z.shiftl (Z.land u (Z.ones 8)) 8) = 0).
  { apply Z.bits_inj'. intros i Hi. rewrite Z.bits_0.
    destruct (Z.lt_ge_cases i 8); bit_expand; bit_cmp;
      rewrite ?andb_false_r, ?andb_false_l; reflexivity. }
  rewrite <- Z.lxor_lor, <- Z.add_nocarry_lxor by exact Hd.
  rewrite !Z.land_ones, Z.shiftr_div_pow2, Z.shiftl_mul_pow2 by lia.
  rewrite (Z.mod_small (u / 2 ^ 8)); [lia|].
  split; [apply Z.div_pos; lia|apply Z.div_lt_upper_bound; lia].
Qed.

(** X1.  [uint16ToByteSlice] splits a 16-bit word into its high and its
    low byte, in this order: two values below 256 with
    [high * 256 + low] equal to the word. *)
Theorem uint16ToByteSlice_splits (u : Z) :
  0 <= u < 2 ^ 16 ->
  exists hi lo, uint16ToByteSlice u = [hi; lo] /\
    0 <= hi < 2 ^ 8 /\ 0 <= lo < 2 ^ 8 /\ hi * 2 ^ 8 + lo = u.
Proof.
  intros Hu. unfold uint16ToByteSlice.
  exists (byte (Z.shiftr u 8)), (byte (Z.land u 0xFF)).
  split; [reflexivity|]. split; [apply byte_range|]. split; [apply byte_range|].
  unfold byte. masks. rewrite !Z.land_ones by lia.
  rewrite Z.shiftr_div_pow2 by lia.
  rewrite Z.mod_mod by lia.
  rewrite (Z.mod_small (u / 2 ^ 8)).
  - pose proof (Z.div_mod u (2 ^ 8)). lia.
  - split; [apply Z.div_pos; lia|apply Z.div_lt_upper_bound; lia].
Qed.

(** X2.  Swapping a 16-bit word with [uint16ToLittleEndian] exchanges the
    two bytes [uint16ToByteSlice] splits it into. *)
Theorem uint16ToLittleEndian_exchanges_bytes (u : Z) :
  0 <= u < 2 ^ 16 ->
  uint16ToByteSlice (uint16ToLittleEndian u) = reverse (uint16ToByteSlice u).
Proof.
  intros Hu. unfold uint16ToByteSlice, uint16ToLittleEndian, byte.
  cbn [reverse rev_append]. masks. f_equal; [|f_equal]; bitwise.
Qed.

Lemma Encode_range (v : encoder) : Forall (fun w => 0 <= w < 2 ^ 16) (Encode v).
Proof.
  destruct v; cbn [Encode]; unfold Encode_float32LittleWordBigEndian,
    Encode_float32BigWordBigEndian, Encode_float32LittleWordLittleEndian,
    Encode_float32BigWordLittleEndian, Encode_wordInt16BigEndian,
    Encode_wordInt16LittleEndian;
    repeat constructor;
    try apply uint16_range; try apply uint16ToLittleEndian_range.
  - pose proof (uint16_range (Z.shiftl (uint16_of_float64 (Number f)) 8)).
    pose proof (uint16_range 1).
    pose proof (lor_range 16 _ _ ltac:(lia) H H0). lia.
  - pose proof (uint16_range (Z.shiftl (uint16_of_float64 (Number f)) 8)).
    pose proof (uint16_range 1).
    pose proof (lor_range 16 _ _ ltac:(lia) H H0). lia.
Qed.

(** X3.  [Encode] returns two words for the four float kinds and one word
    for the two integer kinds, and every word fits in 16 bits. *)
Theorem Encode_words_fit (v : encoder) :
  length (Encode v)
  = match kind_of v with
    | WordInt16BigEndian | WordInt16LittleEndian => 1%nat
    | _ => 2%nat
    end /\
  Forall (fun w => 0 <= w < 2 ^ 16) (Encode v).
Proof. split; [destruct v; reflexivity|apply Encode_range]. Qed.

(** X4.  The four float encoders are each other's images: the
    little-word variants are the big-word variants reversed, and the
    little-endian and the big-endian variant of a word order are obtained
    one from the other by swapping the bytes of each word. *)
Theorem float32_variants_related (f : fields) :
  Encode (float32LittleWordBigEndian f) = reverse (Encode (float32BigWordBigEndian f)) /\
  Encode (float32LittleWordLittleEndian f)
    = reverse (Encode (float32BigWordLittleEndian f)) /\
  Encode (float32BigWordLittleEndian f)
    = uint16ToLittleEndian <$> Encode (float32BigWordBigEndian f) /\
  Encode (float32BigWordBigEndian f)
    = uint16ToLittleEndian <$> Encode (float32BigWordLittleEndian f) /\
  Encode (float32LittleWordBigEndian f)
    = uint16ToLittleEndian <$> Encode (float32LittleWordLittleEndian f).
Proof.
  destruct f as [ty n a].
  destruct (float32_words ty n a) as (H1 & H2 & H3 & H4).
  pose proof (Float32bits_range (float32 n)) as Hb.
  pose proof (high16_range _ Hb) as Rh.
  pose proof (low16_range (Float32bits (float32 n))) as Rl.
  rewrite H1, H2, H3, H4. cbn [reverse rev_append fmap list_fmap].
  rewrite !uint16ToLittleEndian_swap by (assumption || apply swap_range).
  rewrite !swap_involutive by assumption.
  repeat split; reflexivity.
Qed.

(** X5.  [WordInt16LittleEndian] encodes to the single word that carries
    the low byte of [uint16(n)] in its upper 8 bits and the high byte in
    its lower 8 bits; swapping the word again gives [uint16(n)] back. *)
Theorem wordInt16LittleEndian_encode (f : fields) :
  let u := uint16_of_float64 (Number f) in
  exists w, Encode (wordInt16LittleEndian f) = [w] /\
    w = (u mod 2 ^ 8) * 2 ^ 8 + u / 2 ^ 8 /\
    uint16ToLittleEndian w = u.
Proof.
  intros u. pose proof (uint16_of_float64_range (Number f)) as Hu. fold u in Hu.
  exists (uint16ToLittleEndian u). split; [reflexivity|]. split.
  - apply uint16ToLittleEndian_arith. exact Hu.
  - rewrite (uint16ToLittleEndian_swap u Hu).
    rewrite uint16ToLittleEndian_swap by apply swap_range.
    apply swap_involutive. exact Hu.
Qed.

(** ** More on the factory *)

Lemma assert_fields_Return (m : rawRecord) (f : fields) :
  assert_fields m = Return f <->
  m !! "type"%string = Some (JString (Type_ f)) /\
  m !! "number"%string = Some (JNumber (Number f)) /\
  m !! "regAddr"%string = Some (JNumber (RegAddr f)).
Proof.
  unfold assert_fields, assert_string, assert_float64. destruct f as [ty n a].
  cbn [Type_ Number RegAddr]. split.
  - destruct (m !! "type"%string) as [[]|]; try discriminate.
    destruct (m !! "number"%string) as [[]|]; try discriminate.
    destruct (m !! "regAddr"%string) as [[]|]; try discriminate.
    cbn [bind]. intros [= -> -> ->]. auto.
  - intros (-> & -> & ->). reflexivity.
Qed.

Lemma make_encoder_kind (k : kind) (f : fields) :
  kind_of (make_encoder k f) = k /\ fields_of (make_encoder k f) = f.
Proof. destruct k; split; reflexivity. Qed.

Lemma NewEncoder_panic_kind (m : rawRecord) (p : panic) :
  NewEncoder m = Panic p -> p = InterfaceConversion.
Proof.
  rewrite NewEncoder_by_case. unfold assert_fields, assert_string, assert_float64.
  destruct (m !! "type"%string) as [[| | |ty| |]|]; cbn [bind]; try congruence.
  destruct (NewEncoder_cases ty); [|discriminate].
  destruct (m !! "number"%string) as [[]|]; cbn [bind]; try congruence;
    destruct (m !! "regAddr"%string) as [[]|]; cbn [bind]; congruence.
Qed.

(** X6.  [NewEncoder] reads the keys [type], [number] and [regAddr] and
    nothing else: two records that agree on these three keys give the same
    result, whatever other keys they hold. *)
Theorem NewEncoder_reads_three_keys (m m' : rawRecord) :
  m !! "type"%string = m' !! "type"%string ->
  m !! "number"%string = m' !! "number"%string ->
  m !! "regAddr"%string = m' !! "regAddr"%string ->
  NewEncoder m = NewEncoder m'.
Proof.
  intros Ht Hn Ha. rewrite !NewEncoder_by_case. unfold assert_fields.
  rewrite Ht, Hn, Ha. reflexivity.
Qed.

Lemma NewEncoder_Some (m : rawRecord) (e : encoder) :
  NewEncoder m = Return (Some e) ->
  m !! "type"%string = Some (JString (kind_string (kind_of e))) /\
  m !! "number"%string = Some (JNumber (Number (fields_of e))) /\
  m !! "regAddr"%string = Some (JNumber (RegAddr (fields_of e))) /\
  Type_ (fields_of e) = kind_string (kind_of e).
Proof.
  rewrite NewEncoder_by_case. unfold assert_string.
  destruct (m !! "type"%string) as [[| | |ty| |]|] eqn:Ht; cbn [bind];
    try discriminate.
  destruct (NewEncoder_cases ty) as [k|] eqn:Hk; [|discriminate].
  apply NewEncoder_cases_Some in Hk. subst ty.
  destruct (assert_fields m) as [f|] eqn:Hf; cbn [bind]; [|discriminate].
  intros [= <-]. destruct (make_encoder_kind k f) as [-> ->].
  apply assert_fields_Return in Hf as (Hty & Hn & Ha).
  rewrite Ht in Hty. injection Hty as Hty. auto.
Qed.

(** X7.  What a result of [NewEncoder] tells about the record: an encoder
    comes from a record whose [type] is the string of the encoder's kind
    and whose [number] and [regAddr] are the numbers the encoder carries,
    and its [Type] field is that string; nil comes from a record whose
    [type] is a string that is none of the six. *)
Theorem NewEncoder_inversion (m : rawRecord) :
  (forall e, NewEncoder m = Return (Some e) ->
     m !! "type"%string = Some (JString (kind_string (kind_of e))) /\
     m !! "number"%string = Some (JNumber (Number (fields_of e))) /\
     m !! "regAddr"%string = Some (JNumber (RegAddr (fields_of e))) /\
     Type_ (fields_of e) = kind_string (kind_of e)) /\
  (NewEncoder m = Return None ->
     exists ty, m !! "type"%string = Some (JString ty) /\
       forall k, ty <> kind_string k).
Proof.
  split; [intros e; apply NewEncoder_Some|].
  rewrite NewEncoder_by_case. unfold assert_string.
  destruct (m !! "type"%string) as [[| | |ty| |]|] eqn:Ht; cbn [bind];
    try discriminate.
  destruct (NewEncoder_cases ty) as [k|] eqn:Hk.
  - destruct (assert_fields m); discriminate.
  - intros _. exists ty. split; [reflexivity|].
    intros k ->. rewrite kind_string_eqb in Hk. discriminate.
Qed.

Lemma newRegistryData_Return (rs : list rawRecord) (es : list (option encoder)) :
  newRegistryData rs = Return es <->
  Forall2 (fun m e => NewEncoder m = Return e) rs es.
Proof.
  revert es. induction rs as [|m rs IH]; intros es; cbn [newRegistryData].
  - split.
    + intros [= <-]. constructor.
    + intros H. inversion H. reflexivity.
  - destruct (NewEncoder m) as [e|q] eqn:Hm; cbn [bind].
    + destruct (newRegistryData rs) as [es'|q] eqn:Hrs; cbn [bind].
      * split.
        -- intros [= <-]. constructor; [exact Hm|]. apply IH. reflexivity.
        -- intros H. inversion H as [|? e0 ? es0 He Hes]; subst.
           apply IH in Hes. injection Hes as <-. congruence.
      * split; [discriminate|].
        intros H. inversion H as [|? e0 ? es0 He Hes]; subst.
        apply IH in Hes. discriminate.
    + split; [discriminate|]. intros H. inversion H; subst. congruence.
Qed.

Lemma NewEncoder_unknown (m : rawRecord) (ty : string) :
  m !! "type"%string = Some (JString ty) ->
  (forall k, ty <> kind_string k) ->
  NewEncoder m = Return None.
Proof.
  intros Ht Hk. rewrite NewEncoder_by_case, Ht. cbn [assert_string bind].
  destruct (NewEncoder_cases ty) as [k|] eqn:E; [|reflexivity].
  apply NewEncoder_cases_Some in E. exfalso. exact (Hk k E).
Qed.

(** X8.  The loop that builds [registryData] works record by record: it
    returns a list exactly when every record gives a result, and the list
    holds these results in the order of the records; it panics only when
    [NewEncoder] panics on one of the records, and then on a type
    assertion. *)
Theorem newRegistryData_pointwise (rs : list rawRecord) :
  (forall es, newRegistryData rs = Return es <->
     Forall2 (fun m e => NewEncoder m = Return e) rs es) /\
  (forall p, newRegistryData rs = Panic p ->
     p = InterfaceConversion /\ exists m, m ∈ rs /\ NewEncoder m = Panic p).
Proof.
  split; [intros es; apply newRegistryData_Return|].
  induction rs as [|m rs IH]; cbn [newRegistryData]; [discriminate|].
  intros p. destruct (NewEncoder m) as [e|q] eqn:Hm; cbn [bind].
  - destruct (newRegistryData rs) as [es'|q] eqn:Hrs; cbn [bind]; [discriminate|].
    intros [= <-]. destruct (IH q eq_refl) as (-> & m' & Hin & Hp).
    split; [reflexivity|]. exists m'. split; [right; exact Hin|exact Hp].
  - intros [= <-]. split; [eapply NewEncoder_panic_kind; eauto|].
    exists m. split; [left|exact Hm].
Qed.

(** ** More on the builder *)

Lemma name_inj (c c' : category) : name c = name c' -> c = c'.
Proof. destruct c, c'; cbn; congruence. Qed.

Lemma set_buffer_comm (c c' : category) (b b' : slice) (serv : Server) :
  c <> c' ->
  set_buffer c b (set_buffer c' b' serv) = set_buffer c' b' (set_buffer c b serv).
Proof. destruct c, c'; try reflexivity; congruence. Qed.

Lemma set_buffer_twice (c : category) (b b' : slice) (serv : Server) :
  set_buffer c b (set_buffer c b' serv) = set_buffer c b serv.
Proof. destruct c; reflexivity. Qed.

(** Any return of [setRegister] for a category is a return of the pass on
    the buffer of the category. *)
Lemma setRegister_Return (growcap : nat -> nat -> nat) (c : category) serv data off
    serv' (e : option error) :
  setRegister growcap serv data (name c) off = Return (serv', e) <->
  exists buf', place growcap c off data 0 (buffer c serv) = Return (buf', e) /\
    serv' = set_buffer c buf' serv.
Proof.
  rewrite setRegister_place. unfold lift.
  destruct (place growcap c off data 0 (buffer c serv)) as [[buf' e']|]; cbn.
  - split.
    + intros [= <- ->]. eauto.
    + intros (b & [= -> ->] & ->). reflexivity.
  - split; [discriminate|]. intros (b & Hb & _). discriminate.
Qed.

Section MorePlaceFacts.
Variable growcap : nat -> nat -> nat.
Variable c : category.
Variable off : Z.
Local Abbreviation pass := (place growcap c off).
Local Abbreviation eff := (effectiveAddr off).

(** A pass that returns an error stopped at an entry whose guard failed,
    after a successful pass over the entries before it. *)
Lemma place_error_inv data prev buf buf' e :
  pass data prev buf = Return (buf', Some e) ->
  exists pre v rest,
    data = pre ++ Some v :: rest /\
    pass pre prev buf = Return (buf', None) /\
    (match last pre with Some (Some w) => eff w | _ => prev end)
      > int_sub (eff v) (size c) /\
    e = WrongIncrement (name c) (eff v).
Proof.
  revert prev buf. induction data as [|[v|] rest IH]; intros prev buf Hp.
  - discriminate.
  - rewrite place_cons in Hp.
    destruct (Z.gtb_spec prev (int_sub (eff v) (size c))) as [Hgt|Hle].
    + injection Hp as <- <-. exists [], v, rest. cbn. repeat split; auto. lia.
    + destruct (slice_to buf (eff v)) as [s|] eqn:Hs; [|discriminate].
      cbn [bind] in Hp.
      destruct (IH _ _ Hp) as (pre & w & rest' & -> & Hpre & Hg & ->).
      exists (Some v :: pre), w, rest'. split; [reflexivity|]. split.
      * rewrite place_cons.
        destruct (Z.gtb_spec prev (int_sub (eff v) (size c))); [lia|].
        rewrite Hs. cbn [bind]. exact Hpre.
      * split; [|reflexivity]. rewrite last_cons.
        destruct (last pre) as [[u|]|] eqn:Hl; try exact Hg.
        exfalso. destruct (place_ascending _ _ _ _ _ _ _ Hpre) as (es & Heq & _).
        rewrite Heq, fmap_last in Hl. destruct (last es); discriminate.
  - discriminate.
Qed.

(** The units of every entry of a successful pass lie inside the final
    array. *)
Lemma place_fits data prev buf buf' v :
  pass data prev buf = Return (buf', None) -> Some v ∈ data ->
  eff v + Z.of_nat (length (units c v)) <= Z.of_nat (cap buf').
Proof.
  revert prev buf. induction data as [|[w|] rest IH]; intros prev buf Hp Hin.
  - inversion Hin.
  - apply place_cons_ok in Hp as (_ & Hr & Hp).
    apply elem_of_cons in Hin as [[= <-]|Hin'].
    + set (k := Z.to_nat (eff v)) in *.
      assert (Hk : (k <= length (arr buf))%nat) by (unfold cap in Hr; lia).
      destruct (append_cap growcap (arr buf) k (units c v) Hk) as (_ & Hc2 & _).
      destruct (place_frame _ _ _ _ _ _ _ Hp) as [Hcap _]. lia.
    + eapply IH; eauto.
  - discriminate.
Qed.

(** After a successful pass the slice ends where the last entry ends. *)
Lemma place_len data prev buf buf' v :
  pass data prev buf = Return (buf', None) -> last data = Some (Some v) ->
  len buf' = (Z.to_nat (eff v) + length (units c v))%nat.
Proof.
  revert prev buf. induction data as [|[w|] rest IH]; intros prev buf Hp Hl.
  - discriminate.
  - apply place_cons_ok in Hp as (_ & Hr & Hp).
    destruct rest as [|x rest].
    + injection Hl as ->. apply place_nil_inv in Hp as [-> _].
      unfold append; cbn [len]. destruct (_ <=? _)%nat; reflexivity.
    + rewrite last_cons_cons in Hl. eapply IH; eauto.
  - discriminate.
Qed.

(** The last entry of a successful pass is found whole in the buffer. *)
Lemma written_last pre v (p : Z) :
  spans c off v p = true ->
  written c off (pre ++ [Some v]) p = units c v !! Z.to_nat (p - eff v).
Proof.
  intros Hs. induction pre as [|[w|] pre IH]; cbn [app written].
  - rewrite Hs. reflexivity.
  - rewrite IH. apply spans_iff in Hs.
    destruct (units c v !! Z.to_nat (p - eff v)) eqn:E; [reflexivity|].
    apply lookup_ge_None in E. lia.
  - exact IH.
Qed.

End MorePlaceFacts.

(** While the entries fit, [append] never asks the run time for a new
    array. *)
Lemma place_in_place (g1 g2 : nat -> nat -> nat) (c : category) (off : Z)
    data prev buf :
  (forall v, Some v ∈ data ->
     effectiveAddr off v + Z.of_nat (length (units c v)) <= Z.of_nat (cap buf)) ->
  place g1 c off data prev buf = place g2 c off data prev buf /\
  forall buf' e, place g1 c off data prev buf = Return (buf', e) -> cap buf' = cap buf.
Proof.
  revert prev buf. induction data as [|[v|] rest IH]; intros prev buf Hfit.
  - split; [reflexivity|]. intros buf' e [= <- <-]. reflexivity.
  - rewrite !place_cons.
    destruct (prev >? int_sub (effectiveAddr off v) (size c)).
    { split; [reflexivity|]. intros buf' e [= <- <-]. reflexivity. }
    destruct (slice_to buf (effectiveAddr off v)) as [s|] eqn:Hs;
      [|split; [reflexivity|discriminate]].
    apply slice_to_Return in Hs as [Hr ->]. cbn [bind].
    assert (Hv : effectiveAddr off v + Z.of_nat (length (units c v))
                 <= Z.of_nat (cap buf)) by (apply Hfit; left).
    set (k := Z.to_nat (effectiveAddr off v)) in *.
    assert (Hk : (k <= length (arr buf))%nat) by (unfold cap in Hr; lia).
    assert (Hsame : append g1 (Slice (arr buf) k) (units c v)
                    = append g2 (Slice (arr buf) k) (units c v)).
    { unfold append; cbn [arr len].
      destruct (Nat.leb_spec (k + length (units c v)) (cap (Slice (arr buf) k)));
        [reflexivity|]. unfold cap in *; cbn [arr] in *. lia. }
    destruct (append_cap g1 (arr buf) k (units c v) Hk) as (_ & _ & Hc).
    assert (Hcap : cap (append g1 (Slice (arr buf) k) (units c v)) = cap buf)
      by (apply Hc; unfold cap in *; lia).
    destruct (IH (effectiveAddr off v) (append g1 (Slice (arr buf) k) (units c v)))
      as [Heq Hcap'].
    { intros w Hw. rewrite Hcap. apply Hfit. right. exact Hw. }
    split.
    + rewrite Heq, Hsame. reflexivity.
    + intros buf' e Hp. rewrite (Hcap' _ _ Hp). exact Hcap.
  - split; [reflexivity|discriminate].
Qed.

Lemma wordInt16BigEndian_bytes (u : Z) :
  0 <= u < 2 ^ 16 ->
  uint16ToByteSlice (Z.lor (uint16 (Z.shiftl u 8)) (uint16 1)) = [Z.land u 0xFF; 1].
Proof.
  intros Hu. unfold uint16ToByteSlice, byte, uint16.
  change (Z.land 1 0xFFFF) with (Z.ones 1). masks. f_equal; [bitwise|]. f_equal.
  transitivity (Z.ones 1); [bitwise|reflexivity].
Qed.

(** X9.  [setRegister] returns the wrong-file error exactly for a register
    name that is none of "coil", "discrete", "input", "holding"; it then
    looks at no entry (not even a nil one) and leaves the server as it
    was. *)
Theorem setRegister_wrong_file (growcap : nat -> nat -> nat) (serv : Server)
    (data : list (option encoder)) (registerType : string) (off : Z) :
  ((forall c, registerType <> name c) ->
   setRegister growcap serv data registerType off = Return (serv, Some WrongFile)) /\
  (forall serv',
     setRegister growcap serv data registerType off = Return (serv', Some WrongFile) ->
     forall c, registerType <> name c).
Proof.
  split.
  - intros Hno. unfold setRegister.
    destruct (String.eqb_spec registerType "coil") as [E|_];
      [exfalso; exact (Hno Coil E)|].
    destruct (String.eqb_spec registerType "discrete") as [E|_];
      [exfalso; exact (Hno DiscreteInput E)|].
    destruct (String.eqb_spec registerType "input") as [E|_];
      [exfalso; exact (Hno InputRegister E)|].
    destruct (String.eqb_spec registerType "holding") as [E|_];
      [exfalso; exact (Hno HoldingRegister E)|].
    reflexivity.
  - intros serv' H c ->. apply setRegister_Return in H as (buf' & Hp & _).
    apply place_error_inv in Hp as (pre & v & rest & _ & _ & _ & He).
    discriminate.
Qed.

(** X10.  Whatever [setRegister] returns for a category, with or without
    an error, the buffers of the other three categories are as before. *)
Theorem setRegister_other_buffers (growcap : nat -> nat -> nat) (c : category)
    (serv serv' : Server) (data : list (option encoder)) (off : Z)
    (e : option error) :
  setRegister growcap serv data (name c) off = Return (serv', e) ->
  forall c', c' <> c -> buffer c' serv' = buffer c' serv.
Proof.
  intros H c' Hne. apply setRegister_Return in H as (buf' & _ & ->).
  apply buffer_set_buffer_ne. exact Hne.
Qed.

(** X11.  An error of [setRegister] for a category always comes from the
    guard: the list splits into entries that were placed, the server
    returned being the one they built, and an entry at which the tracker
    exceeds its effective address less the size; the error names the
    category and that effective address. *)
Theorem setRegister_error_inversion (growcap : nat -> nat -> nat) (c : category)
    (serv serv' : Server) (data : list (option encoder)) (off : Z) (e : error) :
  setRegister growcap serv data (name c) off = Return (serv', Some e) ->
  exists pre v rest,
    data = pre ++ Some v :: rest /\
    setRegister growcap serv pre (name c) off = Return (serv', None) /\
    lastAddr off pre > int_sub (effectiveAddr off v) (size c) /\
    e = WrongIncrement (name c) (effectiveAddr off v).
Proof.
  intros H. apply setRegister_Return in H as (buf' & Hp & ->).
  apply place_error_inv in Hp as (pre & v & rest & -> & Hpre & Hg & ->).
  exists pre, v, rest. split; [reflexivity|]. split; [|split; [exact Hg|reflexivity]].
  apply setRegister_ok. eauto.
Qed.

(** X12.  A list builds only if it holds no nil entry and its effective
    addresses ascend by at least the unit width, the first being at least
    the unit width; every entry then lies, with all its units, inside the
    final backing array. *)
Theorem setRegister_success_inversion (growcap : nat -> nat -> nat) (c : category)
    (serv serv' : Server) (data : list (option encoder)) (off : Z) :
  setRegister growcap serv data (name c) off = Return (serv', None) ->
  exists es, data = Some <$> es /\
    ascending (size c) 0 (effectiveAddr off <$> es) /\
    Forall (fun v => size c <= effectiveAddr off v /\
                     effectiveAddr off v + Z.of_nat (length (units c v))
                     <= Z.of_nat (cap (buffer c serv'))) es.
Proof.
  intros H. apply setRegister_ok in H as (buf' & Hp & ->).
  rewrite buffer_set_buffer.
  destruct (place_ascending _ _ _ _ _ _ _ Hp) as (es & -> & Hasc & _).
  exists es. split; [reflexivity|]. split; [exact Hasc|].
  apply Forall_forall. intros v Hv. split.
  - pose proof (size_pos c).
    apply (ascending_ge (size c) 0 (effectiveAddr off <$> es)); [lia|exact Hasc|].
    apply list_elem_of_fmap_2. exact Hv.
  - eapply place_fits; [exact Hp|]. apply list_elem_of_fmap_2. exact Hv.
Qed.

(** X13.  After a successful pass the slice of the category ends right
    after the last entry: its length is the effective address of the last
    entry plus the number of units this entry wrote (the cells beyond
    stay in the backing array). *)
Theorem setRegister_length_after (growcap : nat -> nat -> nat) (c : category)
    (serv serv' : Server) (data : list (option encoder)) (off : Z) (v : encoder) :
  setRegister growcap serv data (name c) off = Return (serv', None) ->
  last data = Some (Some v) ->
  len (buffer c serv')
  = (Z.to_nat (effectiveAddr off v) + length (units c v))%nat.
Proof.
  intros H Hl. apply setRegister_ok in H as (buf' & Hp & ->).
  rewrite buffer_set_buffer. eapply place_len; eauto.
Qed.

(** X14.  When every entry lies, with its units, within the capacity of
    the buffer, [append] never reallocates: the outcome of [setRegister]
    does not depend on the growth policy of the run time, and the backing
    array of a returned server has the capacity it had. *)
Theorem setRegister_in_place (g1 g2 : nat -> nat -> nat) (c : category)
    (serv : Server) (data : list (option encoder)) (off : Z) :
  (forall v, Some v ∈ data ->
     effectiveAddr off v + Z.of_nat (length (units c v))
     <= Z.of_nat (cap (buffer c serv))) ->
  setRegister g1 serv data (name c) off = setRegister g2 serv data (name c) off /\
  forall serv' e,
    setRegister g1 serv data (name c) off = Return (serv', e) ->
    cap (buffer c serv') = cap (buffer c serv).
Proof.
  intros Hfit.
  destruct (place_in_place g1 g2 c off data 0 (buffer c serv) Hfit) as [Heq Hcap].
  split.
  - rewrite !setRegister_place, Heq. reflexivity.
  - intros serv' e H. apply setRegister_Return in H as (buf' & Hp & ->).
    rewrite buffer_set_buffer. eapply Hcap; eauto.
Qed.

(** X15.  Passes for two different categories do not interfere: if one
    builds and then the other builds on its result, they also build in
    the other order, and the final server is the same. *)
Theorem setRegister_categories_commute (growcap : nat -> nat -> nat)
    (c c' : category) (serv s1 s2 : Server)
    (d d' : list (option encoder)) (off off' : Z) :
  c <> c' ->
  setRegister growcap serv d (name c) off = Return (s1, None) ->
  setRegister growcap s1 d' (name c') off' = Return (s2, None) ->
  exists s1',
    setRegister growcap serv d' (name c') off' = Return (s1', None) /\
    setRegister growcap s1' d (name c) off = Return (s2, None).
Proof.
  intros Hne H1 H2.
  apply setRegister_ok in H1 as (b1 & Hp1 & ->).
  apply setRegister_ok in H2 as (b2 & Hp2 & ->).
  rewrite buffer_set_buffer_ne in Hp2 by congruence.
  exists (set_buffer c' b2 serv). split.
  - apply setRegister_ok. eauto.
  - apply setRegister_ok. exists b1. split.
    + rewrite buffer_set_buffer_ne by exact Hne. exact Hp1.
    + apply set_buffer_comm. congruence.
Qed.

(** X16.  [setRegister] is idempotent on lists that fit: running the same
    list again on the server a successful run left builds again and
    changes nothing. *)
Theorem setRegister_idempotent (growcap : nat -> nat -> nat) (c : category)
    (serv serv' : Server) (data : list (option encoder)) (off : Z) :
  (forall v, Some v ∈ data ->
     effectiveAddr off v + Z.of_nat (length (units c v))
     <= Z.of_nat (cap (buffer c serv))) ->
  setRegister growcap serv data (name c) off = Return (serv', None) ->
  setRegister growcap serv' data (name c) off = Return (serv', None).
Proof.
  intros Hfit H. apply setRegister_ok in H as (buf' & Hp & ->).
  destruct (place_in_place growcap growcap c off data 0 (buffer c serv) Hfit)
    as [_ Hcap]. specialize (Hcap _ _ Hp).
  destruct (place_ascending _ _ _ _ _ _ _ Hp) as (es & Hes & Hasc & _).
  destruct (place_ok growcap c off es 0 buf') as (buf2 & Hp2 & Hcap2);
    [lia|exact Hasc| |].
  { intros v Hv. rewrite Hcap. apply Hfit. rewrite Hes.
    apply list_elem_of_fmap_2. exact Hv. }
  rewrite <- Hes in Hp2.
  apply setRegister_ok. exists buf2. rewrite buffer_set_buffer.
  split; [exact Hp2|]. rewrite set_buffer_twice. f_equal.
  (* the two slices are the same *)
  destruct (place_frame _ _ _ _ _ _ _ Hp2) as [_ Hfr].
  assert (Harr : arr buf2 = arr buf').
  { apply list_eq. intros p.
    destruct (covered c off data (Z.of_nat p)) eqn:Hc.
    - destruct (covered_written _ _ _ _ Hc) as [x Hx].
      rewrite (place_written _ _ _ _ _ _ _ _ _ Hp2 Hx).
      rewrite (place_written _ _ _ _ _ _ _ _ _ Hp Hx). reflexivity.
    - destruct (Nat.lt_ge_cases p (cap buf')) as [Hlt|Hge].
      + apply (Hfr p Hc). exact Hlt.
      + rewrite (lookup_ge_None_2 (arr buf2)) by (unfold cap in *; lia).
        rewrite (lookup_ge_None_2 (arr buf')) by (unfold cap in *; lia).
        reflexivity. }
  assert (Hlen : len buf2 = len buf').
  { destruct (last data) as [[v|]|] eqn:Hl.
    - rewrite (place_len _ _ _ _ _ _ _ _ Hp2 Hl).
      rewrite (place_len _ _ _ _ _ _ _ _ Hp Hl). reflexivity.
    - exfalso. rewrite Hes, fmap_last in Hl. destruct (last es); discriminate.
    - apply last_None in Hl. rewrite Hl in Hp2.
      apply place_nil_inv in Hp2 as [-> _]. reflexivity. }
  symmetry. destruct buf2, buf'. cbn in *. congruence.
Qed.

(** X17.  A list decoded from records of which one has an unknown type
    string never builds: the record became a nil entry, and when the
    entries before it are placed the call panics on the nil entry instead
    of returning an error. *)
Theorem unknown_type_never_builds (growcap : nat -> nat -> nat) (c : category)
    (serv : Server) (rs : list rawRecord) (data : list (option encoder)) (off : Z) :
  newRegistryData rs = Return data ->
  (exists m ty, m ∈ rs /\ m !! "type"%string = Some (JString ty) /\
     forall k, ty <> kind_string k) ->
  (exists pre rest, data = pre ++ None :: rest) /\
  (forall serv', setRegister growcap serv data (name c) off <> Return (serv', None)) /\
  (forall pre rest s1,
     data = pre ++ None :: rest ->
     setRegister growcap serv pre (name c) off = Return (s1, None) ->
     setRegister growcap serv data (name c) off = Panic NilDereference).
Proof.
  intros Hrs (m & ty & Hin & Ht & Hk).
  apply newRegistryData_Return in Hrs.
  assert (HNone : None ∈ data).
  { pose proof (NewEncoder_unknown m ty Ht Hk) as Hm.
    apply list_elem_of_lookup in Hin as [i Hi].
    destruct (Forall2_lookup_l _ _ _ _ _ Hrs Hi) as (e & He & Hme).
    rewrite Hm in Hme. injection Hme as <-. eapply list_elem_of_lookup_2; eauto. }
  split; [|split].
  - apply list_elem_of_split in HNone as (pre & rest & ->). eauto.
  - intros serv' H. apply setRegister_ok in H as (buf' & Hp & _).
    destruct (place_ascending _ _ _ _ _ _ _ Hp) as (es & -> & _).
    apply list_elem_of_fmap in HNone as (v & Hv & _). discriminate.
  - intros pre rest s1 -> Hpre. apply setRegister_ok in Hpre as (b1 & Hp1 & _).
    rewrite setRegister_place. unfold lift.
    rewrite (place_app _ _ _ _ _ _ _ _ Hp1). reflexivity.
Qed.

(** X18.  In a coil or discrete buffer the last entry of a list that
    builds is found whole; for a [wordInt16BigEndian] entry this is the
    low byte of [uint16(number)] at its effective address and the
    constant 1 at the position after it, whatever the number. *)
Theorem coil_entry_sets_next_cell (growcap : nat -> nat -> nat) (c : category)
    (serv serv' : Server) (data : list (option encoder)) (off : Z) (f : fields) :
  size c = 1 ->
  setRegister growcap serv data (name c) off = Return (serv', None) ->
  last data = Some (Some (wordInt16BigEndian f)) ->
  let a := Z.to_nat (effectiveAddr off (wordInt16BigEndian f)) in
  arr (buffer c serv') !! a = Some (Z.land (uint16_of_float64 (Number f)) 0xFF) /\
  arr (buffer c serv') !! S a = Some 1.
Proof.
  intros Hsz H Hl a. apply setRegister_ok in H as (buf' & Hp & ->).
  rewrite buffer_set_buffer.
  set (v := wordInt16BigEndian f) in *.
  apply last_Some in Hl as (pre & ->).
  assert (Ha : 0 <= effectiveAddr off v).
  { destruct (place_ascending _ _ _ _ _ _ _ Hp) as (es & Heq & _ & Hin).
    assert (Hv : Some v ∈ Some <$> es)
      by (rewrite <- Heq; apply elem_of_app; right; left).
    apply list_elem_of_fmap in Hv as (w & [= <-] & Hw). apply Hin. exact Hw. }
  pose proof (uint16_of_float64_range (Number f)) as Hu.
  assert (Hunits : units c v
                   = [Z.land (uint16_of_float64 (Number f)) 0xFF; 1]).
  { assert (E : units c v = uint16ToByteSlice (hd 0 (Encode v)))
      by (destruct c; try reflexivity; discriminate).
    rewrite E. cbn [v Encode hd]. unfold Encode_wordInt16BigEndian. cbn [hd].
    apply wordInt16BigEndian_bytes. exact Hu. }
  assert (Hcell : forall j x, units c v !! j = Some x ->
            arr buf' !! (a + j)%nat = Some x).
  { intros j x Hj. eapply place_written; [exact Hp|].
    assert ((j < length (units c v))%nat) by (apply lookup_lt_is_Some; eauto).
    rewrite written_last by (apply spans_iff; lia).
    replace (Z.to_nat (Z.of_nat (a + j) - effectiveAddr off v)) with j by lia.
    exact Hj. }
  split.
  - replace a with (a + 0)%nat by lia. apply Hcell. rewrite Hunits. reflexivity.
  - replace (S a) with (a + 1)%nat by lia. apply Hcell. rewrite Hunits. reflexivity.
Qed.

(** ** The driver *)

Lemma parseFlags_registerFiles (args : commandLine) :
  registerFiles (parseFlags args NewFlags) = registerFile_of args <$> categories.
Proof. destruct args as [[?|] [?|] [?|] [?|] ? ?]; reflexivity. Qed.

Lemma rank_inj (c c' : category) : rank c = rank c' -> c = c'.
Proof. destruct c, c'; cbn; congruence. Qed.

Section MainFacts.
Variable growcap : nat -> nat -> nat.
Variable files : string -> option (list rawRecord).
Variable args : commandLine.
Variable off : Z.

Local Abbreviation loop := (range_registerFiles growcap files off).
Local Abbreviation rf := (registerFile_of args).

(** What one round of the loop does. *)
Lemma loop_cons (c : category) (cs : list category) (spec : bool) (serv : Server) :
  loop (rf <$> (c :: cs)) spec serv =
  if String.eqb (file_of args c) "" then loop (rf <$> cs) spec serv
  else match files (file_of args c) with
       | None => loop (rf <$> cs) true serv
       | Some rs =>
           bind (newRegistryData rs) (fun data =>
           bind (setRegister growcap serv data (name c) off) (fun r =>
           match r.2 with
           | Some e => Return (SetRegisterError e r.1)
           | None => loop (rf <$> cs) true r.1
           end))
       end.
Proof. reflexivity. Qed.

(** The ways a round can go on to the next file. *)
Lemma loop_cons_inv (c : category) (cs : list category) (spec : bool)
    (serv : Server) (r : ending) :
  loop (rf <$> (c :: cs)) spec serv = Return r ->
  (file_of args c = ""%string /\ loop (rf <$> cs) spec serv = Return r) \/
  (file_of args c <> ""%string /\ files (file_of args c) = None /\
   loop (rf <$> cs) true serv = Return r) \/
  (exists rs data buf',
     file_of args c <> ""%string /\ files (file_of args c) = Some rs /\
     newRegistryData rs = Return data /\
     ((place growcap c off data 0 (buffer c serv) = Return (buf', None) /\
       loop (rf <$> cs) true (set_buffer c buf' serv) = Return r) \/
      (exists e, place growcap c off data 0 (buffer c serv) = Return (buf', Some e) /\
         r = SetRegisterError e (set_buffer c buf' serv)))).
Proof.
  rewrite loop_cons.
  destruct (String.eqb_spec (file_of args c) "") as [E|E]; [auto|].
  destruct (files (file_of args c)) as [rs|] eqn:Hf; [|auto].
  destruct (newRegistryData rs) as [data|] eqn:Hd; [|discriminate]. cbn [bind].
  destruct (setRegister growcap serv data (name c) off) as [[s1 e]|] eqn:Hs;
    [|discriminate].
  cbn [bind fst snd]. apply setRegister_Return in Hs as (buf' & Hp & ->).
  intros H. right. right. exists rs, data, buf'.
  split; [exact E|]. split; [first [exact Hf|reflexivity]|].
  split; [first [exact Hd|reflexivity]|].
  destruct e as [e|].
  - right. exists e. split; [exact Hp|]. congruence.
  - left. split; [exact Hp|exact H].
Qed.

(** Once a file was named the loop does not end on the no-config line. *)
Lemma loop_true_not_NoConfig (cs : list category) (serv serv' : Server) :
  loop (rf <$> cs) true serv <> Return (NoConfigFile serv').
Proof.
  revert serv. induction cs as [|c cs IH]; intros serv H; [discriminate|].
  apply loop_cons_inv in H
    as [[_ H]|[(_ & _ & H)|(rs & data & buf' & _ & _ & _ & [[_ H]|(e & _ & H)])]];
    try discriminate; eapply IH; eauto.
Qed.

Lemma loop_NoConfig (cs : list category) (serv serv' : Server) :
  loop (rf <$> cs) false serv = Return (NoConfigFile serv') <->
  Forall (fun c => file_of args c = ""%string) cs /\ serv' = serv.
Proof.
  revert serv. induction cs as [|c cs IH]; intros serv.
  - cbn. split.
    + intros [= <-]. auto.
    + intros [_ ->]. reflexivity.
  - split.
    + intros H. apply loop_cons_inv in H
        as [[E H]|[(_ & _ & H)|(rs & data & buf' & _ & _ & _ & [[_ H]|(e & _ & H)])]];
        try discriminate; try (exfalso; eapply loop_true_not_NoConfig; eauto; fail).
      apply IH in H as [Hall ->]. split; [constructor; assumption|reflexivity].
    + intros [Hall ->]. inversion Hall as [|? ? E Hall']; subst.
      rewrite loop_cons, E. cbn [String.eqb]. apply IH. auto.
Qed.

(** Files that are not named or do not open leave the server alone. *)
Lemma loop_skipped (cs : list category) (spec : bool) (serv : Server) :
  Forall (skipped files args) cs ->
  loop (rf <$> cs) spec serv
  = Return (if spec || existsb (fun c => negb (String.eqb (file_of args c) "")) cs
            then Serving serv else NoConfigFile serv).
Proof.
  revert spec. induction cs as [|c cs IH]; intros spec Hall.
  - cbn. rewrite orb_false_r. destruct spec; reflexivity.
  - inversion Hall as [|? ? Hc Hall']; subst. rewrite loop_cons. cbn [existsb].
    destruct (String.eqb_spec (file_of args c) "") as [E|E]; cbn [negb].
    + rewrite IH by assumption. reflexivity.
    + destruct Hc as [Hc|Hc]; [contradiction|]. rewrite Hc.
      rewrite IH by assumption. cbn [orb]. rewrite orb_true_r. reflexivity.
Qed.

Local Abbreviation built_alone := (built_alone growcap files args off).

Lemma loop_serving (cs : list category) (spec : bool) (serv serv' : Server) :
  NoDup cs ->
  loop (rf <$> cs) spec serv = Return (Serving serv') ->
  (forall c, c ∉ cs -> buffer c serv' = buffer c serv) /\
  (forall c, c ∈ cs -> built_alone c serv serv').
Proof.
  revert spec serv. induction cs as [|c0 cs IH]; intros spec serv Hnd H.
  - cbn in H. destruct spec; [|discriminate]. injection H as <-.
    split; [reflexivity|]. intros c Hc. inversion Hc.
  - apply NoDup_cons in Hnd as [Hc0 Hnd].
    assert (Hgo : forall spec1 serv1,
              loop (rf <$> cs) spec1 serv1 = Return (Serving serv') ->
              (forall c, c <> c0 -> buffer c serv1 = buffer c serv) ->
              built_alone c0 serv serv1 ->
              (forall c, c ∉ c0 :: cs -> buffer c serv' = buffer c serv) /\
              (forall c, c ∈ c0 :: cs -> built_alone c serv serv')).
    { intros spec1 serv1 H1 Hsame H0.
      destruct (IH _ _ Hnd H1) as [Hout Hin]. split.
      - intros c Hc. apply not_elem_of_cons in Hc as [Hne Hc].
        rewrite (Hout c Hc). apply Hsame. exact Hne.
      - intros c Hc. apply elem_of_cons in Hc as [->|Hc].
        + unfold built_alone in *. rewrite (Hout c0 Hc0).
          destruct H0 as [[Hs Hb]|(rs & data & ? & ? & ? & Hp)]; [left; auto|].
          right. exists rs, data. auto.
        + assert (Hne : c <> c0) by (intros ->; contradiction).
          specialize (Hin c Hc). unfold built_alone in *.
          rewrite (Hsame c Hne) in Hin. exact Hin. }
    apply loop_cons_inv in H
      as [[E H]|[(E & Hf & H)|(rs & data & buf' & E & Hf & Hd & [[Hp H]|(e & _ & H)])]];
      try discriminate.
    + apply (Hgo _ _ H); [reflexivity|]. left. split; [left; exact E|reflexivity].
    + apply (Hgo _ _ H); [reflexivity|]. left. split; [right; exact Hf|reflexivity].
    + apply (Hgo _ _ H).
      * intros c Hne. apply buffer_set_buffer_ne. exact Hne.
      * right. exists rs, data. rewrite buffer_set_buffer. auto.
Qed.

(** Where the loop stops on an error. *)
Lemma loop_error (cs : list category) (spec : bool) (serv serv' : Server) (e : error) :
  in_order cs ->
  loop (rf <$> cs) spec serv = Return (SetRegisterError e serv') ->
  exists c addr, c ∈ cs /\ e = WrongIncrement (name c) addr /\
    forall c', (rank c < rank c')%nat -> buffer c' serv' = buffer c' serv.
Proof.
  revert spec serv. induction cs as [|c0 cs IH]; intros spec serv Hord H.
  - cbn in H. destruct spec; discriminate.
  - destruct Hord as [Hlt Hord]. rewrite Forall_forall in Hlt.
    assert (Hgo : forall spec1 serv1,
              loop (rf <$> cs) spec1 serv1 = Return (SetRegisterError e serv') ->
              (forall c, c <> c0 -> buffer c serv1 = buffer c serv) ->
              exists c addr, c ∈ c0 :: cs /\ e = WrongIncrement (name c) addr /\
                forall c', (rank c < rank c')%nat -> buffer c' serv' = buffer c' serv).
    { intros spec1 serv1 H1 Hsame.
      destruct (IH _ _ Hord H1) as (c & addr & Hc & He & Hlater).
      exists c, addr. split; [right; exact Hc|]. split; [exact He|].
      intros c' Hr. rewrite (Hlater c' Hr). apply Hsame.
      intros ->. specialize (Hlt c Hc). lia. }
    apply loop_cons_inv in H
      as [[E H]|[(E & Hf & H)|(rs & data & buf' & E & Hf & Hd & [[Hp H]|(e' & Hp & H)])]].
    + apply (Hgo _ _ H). reflexivity.
    + apply (Hgo _ _ H). reflexivity.
    + apply (Hgo _ _ H). intros c Hne. apply buffer_set_buffer_ne. exact Hne.
    + injection H as -> ->.
      apply place_error_inv in Hp as (pre & v & rest & _ & _ & _ & ->).
      exists c0, (effectiveAddr off v). split; [left|]. split; [reflexivity|].
      intros c' Hr. apply buffer_set_buffer_ne. intros ->. lia.
Qed.

End MainFacts.

Lemma main_unfold (growcap : nat -> nat -> nat)
    (files : string -> option (list rawRecord)) (args : commandLine) :
  main growcap files args false
  = range_registerFiles growcap files (default (-1) (arg_registerStartOffset args))
      (registerFile_of args <$> categories) false NewServer.
Proof. unfold main. rewrite parseFlags_registerFiles. reflexivity. Qed.

Lemma categories_all (c : category) : c ∈ categories.
Proof. unfold categories. destruct c; repeat (try (left; fail); right). Qed.

Lemma categories_NoDup : NoDup categories.
Proof.
  unfold categories. repeat constructor; rewrite ?elem_of_cons, ?elem_of_nil;
    intuition discriminate.
Qed.

Lemma categories_in_order : in_order categories.
Proof. unfold categories. cbn. repeat constructor. Qed.

(** X19.  [main] ends on the line "no config files specified or found"
    exactly when none of the four file flags is given (or all are empty);
    the server is then the fresh one. *)
Theorem main_no_config (growcap : nat -> nat -> nat)
    (files : string -> option (list rawRecord)) (args : commandLine)
    (serv : Server) :
  main growcap files args false = Return (NoConfigFile serv) <->
  (forall c, file_of args c = ""%string) /\ serv = NewServer.
Proof.
  rewrite main_unfold, loop_NoConfig, Forall_forall. split.
  - intros [H ->]. split; [|reflexivity]. intros c. apply H, categories_all.
  - intros [H ->]. split; [|reflexivity]. intros c _. apply H.
Qed.

(** X20.  A file that does not open is passed over, yet counts as
    specified: when at least one file is named and every named file fails
    to open, [main] goes on to serve the fresh, all-zero server. *)
Theorem main_unopened_files (growcap : nat -> nat -> nat)
    (files : string -> option (list rawRecord)) (args : commandLine) :
  (exists c, file_of args c <> ""%string) ->
  (forall c, skipped files args c) ->
  main growcap files args false = Return (Serving NewServer).
Proof.
  intros [c Hc] Hall. rewrite main_unfold, loop_skipped.
  - cbn [orb].
    replace (existsb (fun c0 => negb (String.eqb (file_of args c0) "")) categories)
      with true; [reflexivity|].
    symmetry. apply existsb_exists. exists c. split.
    + apply list_elem_of_In, categories_all.
    + destruct (String.eqb_spec (file_of args c) ""); [contradiction|reflexivity].
  - apply Forall_forall. intros c' _. apply Hall.
Qed.

(** X21.  When [main] serves, the buffer of every category is the fresh
    one if the category was passed over (no file named, or the file did
    not open), and otherwise the one [setRegister] builds on a fresh
    server from the records of the category's own file, under the
    configured offset: the four files do not influence one another. *)
Theorem main_serving (growcap : nat -> nat -> nat)
    (files : string -> option (list rawRecord)) (args : commandLine)
    (serv' : Server) :
  main growcap files args false = Return (Serving serv') ->
  forall c,
    (skipped files args c /\ buffer c serv' = buffer c NewServer) \/
    (exists rs data s,
       file_of args c <> ""%string /\ files (file_of args c) = Some rs /\
       newRegistryData rs = Return data /\
       setRegister growcap NewServer data (name c)
         (default (-1) (arg_registerStartOffset args)) = Return (s, None) /\
       buffer c serv' = buffer c s).
Proof.
  rewrite main_unfold. intros H c.
  destruct (loop_serving _ _ _ _ _ _ _ _ categories_NoDup H) as [_ Hin].
  destruct (Hin c (categories_all c)) as [Hs|(rs & data & E & Hf & Hd & Hp)];
    [left; exact Hs|].
  right. exists rs, data, (set_buffer c (buffer c serv') NewServer).
  split; [exact E|]. split; [exact Hf|]. split; [exact Hd|]. split.
  - apply setRegister_ok. eauto.
  - rewrite buffer_set_buffer. reflexivity.
Qed.

(** X22.  When [main] stops on an error of [setRegister], the error is a
    wrong-increment error of one of the four categories (never the
    wrong-file error), and the buffers of the categories that come after
    it in the order coil, discrete, input, holding are the fresh ones:
    their files were not looked at. *)
Theorem main_stops_at_first_error (growcap : nat -> nat -> nat)
    (files : string -> option (list rawRecord)) (args : commandLine)
    (e : error) (serv' : Server) :
  main growcap files args false = Return (SetRegisterError e serv') ->
  exists c addr,
    e = WrongIncrement (name c) addr /\
    forall c', (rank c < rank c')%nat -> buffer c' serv' = buffer c' NewServer.
Proof.
  rewrite main_unfold. intros H.
  destruct (loop_error _ _ _ _ _ _ _ _ _ categories_in_order H)
    as (c & addr & _ & He & Hlater).
  exists c, addr. auto.
Qed.


(** ** The cells of the buffers *)

Lemma units_range (c : category) (v : encoder) :
  Forall (fun x => 0 <= x < cell_bound c) (units c v).
Proof.
  destruct c; cbn [units cell_bound]; try apply Encode_range;
    unfold uint16ToByteSlice; repeat constructor; apply byte_range.
Qed.

Lemma place_cells (growcap : nat -> nat -> nat) (c : category) (off : Z)
    data prev buf buf' (e : option error) :
  place growcap c off data prev buf = Return (buf', e) ->
  Forall (fun x => 0 <= x < cell_bound c) (arr buf) ->
  Forall (fun x => 0 <= x < cell_bound c) (arr buf').
Proof.
  revert prev buf. induction data as [|[v|] rest IH]; intros prev buf Hp Hb.
  - injection Hp as <- <-. exact Hb.
  - rewrite place_cons in Hp.
    destruct (prev >? int_sub (effectiveAddr off v) (size c)).
    { injection Hp as <- <-. exact Hb. }
    destruct (slice_to buf (effectiveAddr off v)) as [s|] eqn:Hs; [|discriminate].
    apply slice_to_Return in Hs as [_ ->]. cbn [bind] in Hp.
    apply (IH _ _ Hp). unfold append; cbn [arr len].
    assert (0 <= 0 < cell_bound c) by (destruct c; cbn; lia).
    destruct (_ <=? _)%nat; cbn [arr]; rewrite !Forall_app;
      repeat split; auto using Forall_take, Forall_drop, Forall_replicate, units_range.
  - discriminate.
Qed.

(** X24.  [setRegister] never stores a value that does not fit a cell: if
    the cells of the category's buffer are bytes (coil, discrete) or 16-bit
    words (input, holding) before the call, they still are whenever the
    call returns, with or without an error. *)
Theorem setRegister_cells_fit (growcap : nat -> nat -> nat) (c : category)
    (serv serv' : Server) (data : list (option encoder)) (off : Z)
    (e : option error) :
  setRegister growcap serv data (name c) off = Return (serv', e) ->
  Forall (fun x => 0 <= x < cell_bound c) (arr (buffer c serv)) ->
  Forall (fun x => 0 <= x < cell_bound c) (arr (buffer c serv')).
Proof.
  intros H Hb. apply setRegister_Return in H as (buf' & Hp & ->).
  rewrite buffer_set_buffer. eapply place_cells; eauto.
Qed.

(** ** More properties on concrete inputs *)

(** A command line that names one file only. *)
Lemma main_single_file (growcap : nat -> nat -> nat)
    (files : string -> option (list rawRecord)) (args : commandLine)
    (c : category) rs data s (e : option error) :
  (forall c', c' <> c -> file_of args c' = ""%string) ->
  file_of args c <> ""%string ->
  files (file_of args c) = Some rs ->
  newRegistryData rs = Return data ->
  setRegister growcap NewServer data (name c)
    (default (-1) (arg_registerStartOffset args)) = Return (s, e) ->
  main growcap files args false
  = Return (match e with Some err => SetRegisterError err s | None => Serving s end).
Proof.
  intros Hothers Hc Hf Hd Hs. rewrite main_unfold. unfold categories.
  assert (Hskip : forall c' cs spec serv, c' <> c ->
            range_registerFiles growcap files
              (default (-1) (arg_registerStartOffset args))
              (registerFile_of args <$> (c' :: cs)) spec serv
            = range_registerFiles growcap files
                (default (-1) (arg_registerStartOffset args))
                (registerFile_of args <$> cs) spec serv).
  { intros c' cs spec serv Hne. rewrite loop_cons, (Hothers c' Hne). reflexivity. }
  assert (Hhit : forall cs spec,
            range_registerFiles growcap files
              (default (-1) (arg_registerStartOffset args))
              (registerFile_of args <$> (c :: cs)) spec NewServer
            = match e with
              | Some err => Return (SetRegisterError err s)
              | None => range_registerFiles growcap files
                          (default (-1) (arg_registerStartOffset args))
                          (registerFile_of args <$> cs) true s
              end).
  { intros cs spec. rewrite loop_cons.
    destruct (String.eqb_spec (file_of args c) ""); [contradiction|].
    rewrite Hf, Hd. cbn [bind]. rewrite Hs. reflexivity. }
  destruct c; rewrite ?Hskip by discriminate; rewrite Hhit;
    (destruct e; [reflexivity|]); rewrite ?Hskip by discriminate; reflexivity.
Qed.

Lemma twoHolding_builds :
  setRegister tight NewServer twoHolding (name HoldingRegister) (-1)
  = Return (server_of (setRegister tight NewServer twoHolding
                         (name HoldingRegister) (-1)), None).
Proof.
  apply (setRegister_builds tight HoldingRegister NewServer
           [holdingEntry 101; holdingEntry 103] (-1));
    [by_compute|repeat constructor; by_compute].
Qed.

Lemma twoHolding_fit (v : encoder) :
  Some v ∈ twoHolding ->
  effectiveAddr (-1) v + Z.of_nat (length (units HoldingRegister v))
  <= Z.of_nat (cap (buffer HoldingRegister NewServer)).
Proof.
  unfold twoHolding. rewrite !elem_of_cons, elem_of_nil.
  intros [[= ->]|[[= ->]|[]]]; by_compute.
Qed.

Lemma overlapping_pair_fails :
  setRegister tight NewServer
    ([Some (holdingEntry 101)] ++ Some (holdingEntry 102) :: [])
    (name HoldingRegister) (-1)
  = Return (server_of (setRegister tight NewServer [Some (holdingEntry 101)]
                         (name HoldingRegister) (-1)),
            Some (WrongIncrement (name HoldingRegister)
                    (effectiveAddr (-1) (holdingEntry 102)))).
Proof.
  apply setRegister_guard.
  - apply (setRegister_builds tight HoldingRegister NewServer [holdingEntry 101] (-1));
      [by_compute|repeat constructor; by_compute].
  - by_compute.
Qed.

Lemma uint16ToByteSlice_splits_witness :
  exists hi lo, uint16ToByteSlice 0x4049 = [hi; lo] /\
    0 <= hi < 2 ^ 8 /\ 0 <= lo < 2 ^ 8 /\ hi * 2 ^ 8 + lo = 0x4049.
Proof. apply uint16ToByteSlice_splits. lia. Defined.

Lemma uint16ToLittleEndian_exchanges_bytes_witness :
  uint16ToByteSlice (uint16ToLittleEndian 0x4049) = reverse (uint16ToByteSlice 0x4049).
Proof. apply uint16ToLittleEndian_exchanges_bytes. lia. Defined.

Lemma NewEncoder_reads_three_keys_witness :
  NewEncoder (<[ "unit"%string := JString "bar" ]> (record "wordInt16BigEndian" 1 0))
  = NewEncoder (record "wordInt16BigEndian" 1 0).
Proof. apply NewEncoder_reads_three_keys; by_vm. Defined.

Lemma NewEncoder_inversion_witness :
  record "wordInt16BigEndian" 1 0 !! "number"%string
    = Some (JNumber (Number (fields_of (coilEntry 1 0)))) /\
  exists ty, record "int16" 1 0 !! "type"%string = Some (JString ty) /\
    forall k, ty <> kind_string k.
Proof.
  split.
  - apply (proj1 (NewEncoder_inversion (record "wordInt16BigEndian" 1 0))
             (coilEntry 1 0)). by_vm.
  - apply (proj2 (NewEncoder_inversion (record "int16" 1 0))). by_vm.
Defined.

Lemma newRegistryData_pointwise_witness :
  newRegistryData [record "wordInt16BigEndian" 1 0; record "int16" 1 0]
  = Return [Some (coilEntry 1 0); None].
Proof.
  apply (proj1 (newRegistryData_pointwise _)).
  repeat constructor; by_vm.
Defined.

Lemma setRegister_wrong_file_witness :
  setRegister tight NewServer twoHolding "holding.json" (-1)
  = Return (NewServer, Some WrongFile).
Proof.
  apply (proj1 (setRegister_wrong_file tight NewServer twoHolding "holding.json" (-1))).
  intros []; discriminate.
Defined.

Lemma setRegister_other_buffers_witness :
  buffer Coil (server_of (setRegister tight NewServer twoHolding
                            (name HoldingRegister) (-1)))
  = buffer Coil NewServer.
Proof.
  apply (setRegister_other_buffers tight HoldingRegister NewServer _ twoHolding (-1)
           None twoHolding_builds).
  discriminate.
Defined.

Lemma setRegister_error_inversion_witness :
  exists pre v rest,
    [Some (holdingEntry 101)] ++ Some (holdingEntry 102) :: []
      = pre ++ Some v :: rest /\
    setRegister tight NewServer pre (name HoldingRegister) (-1)
      = Return (server_of (setRegister tight NewServer [Some (holdingEntry 101)]
                             (name HoldingRegister) (-1)), None) /\
    lastAddr (-1) pre > int_sub (effectiveAddr (-1) v) (size HoldingRegister) /\
    WrongIncrement (name HoldingRegister) (effectiveAddr (-1) (holdingEntry 102))
      = WrongIncrement (name HoldingRegister) (effectiveAddr (-1) v).
Proof.
  exact (setRegister_error_inversion tight HoldingRegister NewServer _ _ (-1) _
           overlapping_pair_fails).
Defined.

Lemma setRegister_success_inversion_witness :
  exists es, twoHolding = Some <$> es /\
    ascending (size HoldingRegister) 0 (effectiveAddr (-1) <$> es) /\
    Forall (fun v => size HoldingRegister <= effectiveAddr (-1) v /\
                     effectiveAddr (-1) v
                       + Z.of_nat (length (units HoldingRegister v))
                     <= Z.of_nat (cap (buffer HoldingRegister
                          (server_of (setRegister tight NewServer twoHolding
                                        (name HoldingRegister) (-1)))))) es.
Proof.
  exact (setRegister_success_inversion tight HoldingRegister NewServer _ twoHolding
           (-1) twoHolding_builds).
Defined.

Lemma setRegister_length_after_witness :
  len (buffer HoldingRegister
         (server_of (setRegister tight NewServer twoHolding
                       (name HoldingRegister) (-1))))
  = (Z.to_nat (effectiveAddr (-1) (holdingEntry 103))
     + length (units HoldingRegister (holdingEntry 103)))%nat.
Proof.
  apply (setRegister_length_after tight HoldingRegister NewServer _ twoHolding (-1)
           (holdingEntry 103) twoHolding_builds).
  reflexivity.
Defined.

Lemma setRegister_in_place_witness :
  setRegister tight NewServer twoHolding (name HoldingRegister) (-1)
  = setRegister (fun old needed => (2 * needed)%nat) NewServer twoHolding
      (name HoldingRegister) (-1).
Proof.
  apply (setRegister_in_place tight (fun old needed => (2 * needed)%nat)
           HoldingRegister NewServer twoHolding (-1)).
  exact twoHolding_fit.
Defined.

Lemma setRegister_idempotent_witness :
  setRegister tight
    (server_of (setRegister tight NewServer twoHolding (name HoldingRegister) (-1)))
    twoHolding (name HoldingRegister) (-1)
  = Return (server_of (setRegister tight NewServer twoHolding
                         (name HoldingRegister) (-1)), None).
Proof.
  apply (setRegister_idempotent tight HoldingRegister NewServer _ twoHolding (-1)
           twoHolding_fit twoHolding_builds).
Defined.

Lemma unknown_type_never_builds_witness :
  setRegister tight NewServer [None] (name Coil) (-1) = Panic NilDereference.
Proof.
  destruct (unknown_type_never_builds tight Coil NewServer
              [record "int16" 1 0] [None] (-1)) as (_ & _ & H).
  - by_vm.
  - exists (record "int16" 1 0), "int16"%string. split; [left|]. split; [by_vm|].
    intros []; discriminate.
  - apply (H [] [] NewServer); [reflexivity|]. apply setRegister_nil.
Defined.

Lemma setRegister_cells_fit_witness :
  Forall (fun x => 0 <= x < cell_bound HoldingRegister)
    (arr (buffer HoldingRegister
            (server_of (setRegister tight NewServer twoHolding
                          (name HoldingRegister) (-1))))).
Proof.
  apply (setRegister_cells_fit tight HoldingRegister NewServer _ twoHolding (-1)
           None twoHolding_builds).
  apply Forall_replicate. by_compute.
Defined.

Lemma NewServer_cap (c : category) : cap (buffer c NewServer) = Z.to_nat 65536.
Proof. destruct c; apply length_replicate. Qed.

Lemma twoHolding_keeps_coils :
  buffer Coil (server_of (setRegister tight NewServer twoHolding
                            (name HoldingRegister) (-1)))
  = buffer Coil NewServer.
Proof.
  pose proof twoHolding_builds as H.
  apply setRegister_Return in H as (buf' & _ & ->).
  apply buffer_set_buffer_ne. discriminate.
Qed.

Lemma oneCoil_builds (serv : Server) :
  cap (buffer Coil serv) = Z.to_nat 65536 ->
  setRegister tight serv [Some (coilEntry 0 2)] (name Coil) (-1)
  = Return (server_of (setRegister tight serv [Some (coilEntry 0 2)]
                         (name Coil) (-1)), None).
Proof.
  intros Hcap.
  apply (setRegister_builds tight Coil serv [coilEntry 0 2] (-1)).
  - by_compute.
  - repeat constructor. rewrite Hcap. by_compute.
Qed.

Lemma setRegister_categories_commute_witness :
  exists s1',
    setRegister tight NewServer [Some (coilEntry 0 2)] (name Coil) (-1)
      = Return (s1', None) /\
    setRegister tight s1' twoHolding (name HoldingRegister) (-1)
      = Return (server_of
                  (setRegister tight
                     (server_of (setRegister tight NewServer twoHolding
                                   (name HoldingRegister) (-1)))
                     [Some (coilEntry 0 2)] (name Coil) (-1)), None).
Proof.
  apply (setRegister_categories_commute tight HoldingRegister Coil NewServer
           (server_of (setRegister tight NewServer twoHolding
                         (name HoldingRegister) (-1)))).
  - discriminate.
  - exact twoHolding_builds.
  - apply oneCoil_builds. rewrite twoHolding_keeps_coils. apply NewServer_cap.
Defined.

Lemma coil_entry_sets_next_cell_witness :
  arr (buffer Coil (server_of (setRegister tight NewServer [Some (coilEntry 0 2)]
                                 (name Coil) (-1)))) !! 1%nat = Some 0 /\
  arr (buffer Coil (server_of (setRegister tight NewServer [Some (coilEntry 0 2)]
                                 (name Coil) (-1)))) !! 2%nat = Some 1.
Proof.
  pose proof (coil_entry_sets_next_cell tight Coil NewServer _
                [Some (coilEntry 0 2)] (-1) (Fields "wordInt16BigEndian" 0 2)
                eq_refl (oneCoil_builds NewServer (NewServer_cap Coil)) eq_refl) as H.
  cbv zeta in H.
  assert (A : Z.to_nat (effectiveAddr (-1)
                (wordInt16BigEndian (Fields "wordInt16BigEndian" 0 2))) = 1%nat)
    by by_vm.
  assert (B : Z.land (uint16_of_float64
                (Number (Fields "wordInt16BigEndian" 0 2))) 0xFF = 0) by by_vm.
  rewrite A, B in H. exact H.
Defined.

(** A command line naming the holding file only, and what is in it. *)
Lemma main_no_config_witness :
  main tight (fun _ => None) (Build_commandLine None None None None None None) false
  = Return (NoConfigFile NewServer).
Proof.
  apply main_no_config. split; [|reflexivity]. intros []; reflexivity.
Defined.

Lemma main_unopened_files_witness :
  main tight (fun _ => None)
    (Build_commandLine (Some "coil.json"%string) None None None None None) false
  = Return (Serving NewServer).
Proof.
  apply main_unopened_files.
  - exists Coil. discriminate.
  - intros c. right. reflexivity.
Defined.

Lemma holdingOnly_others (c : category) :
  c <> HoldingRegister -> file_of holdingOnly c = ""%string.
Proof. destruct c; try reflexivity. congruence. Qed.

Lemma holdingOnly_serves :
  main tight (holdingFile [holdingRecord 101; holdingRecord 103]) holdingOnly false
  = Return (Serving (server_of (setRegister tight NewServer twoHolding
                                  (name HoldingRegister) (-1)))).
Proof.
  apply (main_single_file tight _ holdingOnly HoldingRegister
           [holdingRecord 101; holdingRecord 103] twoHolding _ None).
  - exact holdingOnly_others.
  - discriminate.
  - reflexivity.
  - by_vm.
  - exact twoHolding_builds.
Qed.

Lemma holdingOnly_stops :
  main tight (holdingFile [holdingRecord 101; holdingRecord 102]) holdingOnly false
  = Return (SetRegisterError
              (WrongIncrement (name HoldingRegister)
                 (effectiveAddr (-1) (holdingEntry 102)))
              (server_of (setRegister tight NewServer [Some (holdingEntry 101)]
                            (name HoldingRegister) (-1)))).
Proof.
  apply (main_single_file tight _ holdingOnly HoldingRegister
           [holdingRecord 101; holdingRecord 102]
           ([Some (holdingEntry 101)] ++ Some (holdingEntry 102) :: []) _
           (Some (WrongIncrement (name HoldingRegister)
                    (effectiveAddr (-1) (holdingEntry 102))))).
  - exact holdingOnly_others.
  - discriminate.
  - reflexivity.
  - by_vm.
  - exact overlapping_pair_fails.
Qed.

Lemma main_serving_witness :
  (skipped (holdingFile [holdingRecord 101; holdingRecord 103]) holdingOnly Coil /\
   buffer Coil (server_of (setRegister tight NewServer twoHolding
                             (name HoldingRegister) (-1)))
   = buffer Coil NewServer) \/
  (exists rs data s,
     file_of holdingOnly Coil <> ""%string /\
     holdingFile [holdingRecord 101; holdingRecord 103] (file_of holdingOnly Coil)
       = Some rs /\
     newRegistryData rs = Return data /\
     setRegister tight NewServer data (name Coil)
       (default (-1) (arg_registerStartOffset holdingOnly)) = Return (s, None) /\
     buffer Coil (server_of (setRegister tight NewServer twoHolding
                               (name HoldingRegister) (-1)))
     = buffer Coil s).
Proof. exact (main_serving tight _ holdingOnly _ holdingOnly_serves Coil). Defined.

Lemma main_stops_at_first_error_witness :
  exists c addr,
    WrongIncrement (name HoldingRegister) (effectiveAddr (-1) (holdingEntry 102))
      = WrongIncrement (name c) addr /\
    forall c', (rank c < rank c')%nat ->
      buffer c' (server_of (setRegister tight NewServer [Some (holdingEntry 101)]
                              (name HoldingRegister) (-1)))
      = buffer c' NewServer.
Proof. exact (main_stops_at_first_error tight _ holdingOnly _ _ holdingOnly_stops). Defined.

